(** * Expense splitter: money arithmetic, ledger and settlement engine

    A shallow embedding of the [Decimal] and [Calculator] objects of
    [src/script.js], and the properties of them that the specification
    states.

    Conventions of the embedding.
    - A JavaScript number that holds an amount of cents is a [num]: an exact
      integer, one of the two infinities, or NaN.  Finite values are exact
      (the code is modelled in the range where double arithmetic on integers
      is exact, below 2^53); the non-finite values follow IEEE 754, because
      the literal [Infinity] is accepted by [toCents].
    - A number that is not an integer only occurs between [parseFloat] and
      [Math.round], and between the division by 100 and [toFixed]; it is a
      [fval], a signed decimal [m * 10^e] written out exactly.
    - Strings are [string]s of bytes; white space is the ASCII white space.
    - A JavaScript object used as a dictionary keyed by member id is a
      [gmap string _] ([balanceMap]) or, where the insertion order is
      observable, an association list ([shares]).  Member ids are ordinary
      own-property keys.
    - A thrown exception is the [Err] case of [result]. *)

From Stdlib Require Import ZArith NArith Lia Ascii String Decimal DecimalString DecimalN.
From stdpp Require Import gmap strings list fin_maps.

#[local] Set Warnings "-clear-no-such-hyp".

Local Open Scope Z_scope.

(** ** JavaScript numbers *)

Module JS.

Inductive num : Type :=
| Fin (z : Z)
| PInf
| NInf
| NaN.

(** A decimal value [(-1)^neg * m * 10^e], an infinity, or NaN. *)
Inductive fval : Type :=
| FDec (neg : bool) (m : N) (e : Z)
| FInf (neg : bool)
| FNaN.

Definition num_eqb (a b : num) : bool :=
  match a, b with
  | Fin x, Fin y => x =? y
  | PInf, PInf | NInf, NInf => true
  | _, _ => false
  end.

(** [a + b] *)
Definition add (a b : num) : num :=
  match a, b with
  | NaN, _ | _, NaN => NaN
  | PInf, NInf | NInf, PInf => NaN
  | PInf, _ | _, PInf => PInf
  | NInf, _ | _, NInf => NInf
  | Fin x, Fin y => Fin (x + y)
  end.

(** [- a] *)
Definition neg (a : num) : num :=
  match a with
  | Fin x => Fin (- x)
  | PInf => NInf
  | NInf => PInf
  | NaN => NaN
  end.

(** [a - b] *)
Definition sub (a b : num) : num := add a (neg b).

(** [a * b] *)
Definition mul (a b : num) : num :=
  match a, b with
  | NaN, _ | _, NaN => NaN
  | Fin x, Fin y => Fin (x * y)
  | Fin x, PInf | PInf, Fin x =>
      if x =? 0 then NaN else if 0 <? x then PInf else NInf
  | Fin x, NInf | NInf, Fin x =>
      if x =? 0 then NaN else if 0 <? x then NInf else PInf
  | PInf, PInf | NInf, NInf => PInf
  | PInf, NInf | NInf, PInf => NInf
  end.

(** [a < b]; every comparison with NaN is false. *)
Definition ltb (a b : num) : bool :=
  match a, b with
  | Fin x, Fin y => x <? y
  | Fin _, PInf | NInf, Fin _ | NInf, PInf => true
  | _, _ => false
  end.

(** [a > b] *)
Definition gtb (a b : num) : bool := ltb b a.

(** [a <= b] *)
Definition leb (a b : num) : bool :=
  match a, b with
  | Fin x, Fin y => x <=? y
  | Fin _, PInf | NInf, Fin _ | NInf, PInf | NInf, NInf | PInf, PInf => true
  | _, _ => false
  end.

(** [Number.isFinite(a)] *)
Definition is_finite (a : num) : bool :=
  match a with
  | Fin _ => true
  | _ => false
  end.

(** [a === 0] *)
Definition is_zero (a : num) : bool :=
  match a with
  | Fin x => x =? 0
  | _ => false
  end.

(** [Math.abs(a)] *)
Definition abs (a : num) : num :=
  match a with
  | Fin x => Fin (Z.abs x)
  | PInf | NInf => PInf
  | NaN => NaN
  end.

(** [Math.min(a, b)] *)
Definition min (a b : num) : num :=
  match a, b with
  | NaN, _ | _, NaN => NaN
  | NInf, _ | _, NInf => NInf
  | PInf, x | x, PInf => x
  | Fin x, Fin y => Fin (Z.min x y)
  end.

(** [Math.floor(a / b)] for an integer-valued [a] and a positive integer
    [b], the only use the code makes of the division. *)
Definition floor_div (a : num) (b : Z) : num :=
  match a with
  | Fin x => Fin (x / b)
  | other => other
  end.

(** [x * 100] on a decimal value. *)
Definition times100 (x : fval) : fval :=
  match x with
  | FDec s m e => FDec s m (e + 2)
  | other => other
  end.

(** [cents / 100] *)
Definition div100 (c : num) : fval :=
  match c with
  | Fin z => FDec (z <? 0) (Z.abs_N z) (-2)
  | PInf => FInf false
  | NInf => FInf true
  | NaN => FNaN
  end.

Definition signed (s : bool) (m : N) : Z :=
  if s then - Z.of_N m else Z.of_N m.

#[global] Instance num_eq_dec : EqDecision num.
Proof. solve_decision. Defined.

(** The integer nearest to [x * 10^e], a tie going towards +infinity. *)
Definition round_int (x e : Z) : Z :=
  if 0 <=? e then x * 10 ^ e
  else let d := 10 ^ (- e) in (2 * x + d) / (2 * d).

(** [Math.round(x)] *)
Definition round (x : fval) : num :=
  match x with
  | FDec s m e => Fin (round_int (signed s m) e)
  | FInf false => PInf
  | FInf true => NInf
  | FNaN => NaN
  end.

End JS.

Import JS(num(..), fval(..)).

(** ** Strings: white space, digits, numeric literals *)

Module Str.

Local Open Scope string_scope.

Definition is_ws (c : ascii) : bool :=
  let n := nat_of_ascii c in
  ((9 <=? n) && (n <=? 13))%nat || (n =? 32)%nat.

Fixpoint ltrim (s : string) : string :=
  match s with
  | String c s' => if is_ws c then ltrim s' else s
  | EmptyString => EmptyString
  end.

Fixpoint rtrim (s : string) : string :=
  match s with
  | String c s' =>
      match rtrim s' with
      | EmptyString => if is_ws c then EmptyString else String c EmptyString
      | r => String c r
      end
  | EmptyString => EmptyString
  end.

(** [s.trim()] *)
Definition trim (s : string) : string := rtrim (ltrim s).

Definition digit_of_ascii (c : ascii) : option (uint -> uint) :=
  match c with
  | "0"%char => Some D0 | "1"%char => Some D1 | "2"%char => Some D2
  | "3"%char => Some D3 | "4"%char => Some D4 | "5"%char => Some D5
  | "6"%char => Some D6 | "7"%char => Some D7 | "8"%char => Some D8
  | "9"%char => Some D9
  | _ => None
  end.

Definition is_digit (c : ascii) : bool :=
  match digit_of_ascii c with Some _ => true | None => false end.

(** The longest prefix of decimal digits, and what follows it. *)
Fixpoint scanDigits (s : string) : uint * string :=
  match s with
  | String c s' =>
      match digit_of_ascii c with
      | Some d => let (u, r) := scanDigits s' in (d u, r)
      | None => (Nil, s)
      end
  | EmptyString => (Nil, EmptyString)
  end.

Definition is_nil (u : uint) : bool :=
  match u with Nil => true | _ => false end.

(** An optional sign: [true] for a minus. *)
Definition scanSign (s : string) : bool * string :=
  match s with
  | String c r =>
      if (c =? "-")%char then (true, r)
      else if (c =? "+")%char then (false, r)
      else (false, s)
  | EmptyString => (false, s)
  end.

(** The exponent part [e<sign><digits>] of a literal; nothing is consumed
    when no digit follows. *)
Definition scanExponent (s : string) : Z * string :=
  match s with
  | String c r =>
      if (c =? "e")%char || (c =? "E")%char then
        let (sg, r1) := scanSign r in
        let (u, r2) := scanDigits r1 in
        if is_nil u then (0, s)
        else (JS.signed sg (N.of_uint u), r2)
      else (0, s)
  | EmptyString => (0, s)
  end.

(** The longest prefix that is a [StrDecimalLiteral] of ECMAScript, its
    value, and the rest of the string; [None] when no prefix is one. *)
Definition scanDecimal (s : string) : option (fval * string) :=
  let (sg, r0) := scanSign s in
  match String.prefix "Infinity" r0 with
  | true => Some (FInf sg, String.substring 8 (String.length r0 - 8) r0)
  | false =>
      let (u, r1) := scanDigits r0 in
      let '(f, r2) :=
        match r1 with
        | String "."%char r =>
            let (f, r') := scanDigits r in
            if is_nil u && is_nil f then (Nil, r1) else (f, r')
        | _ => (Nil, r1)
        end in
      if is_nil u && is_nil f then None
      else
        let (e, r3) := scanExponent r2 in
        let k := Decimal.nb_digits f in
        Some (FDec sg (N.of_uint u * 10 ^ N.of_nat k + N.of_uint f)
                (e - Z.of_nat k), r3)
  end.

Fixpoint all_chars (p : ascii -> bool) (s : string) : bool :=
  match s with
  | String c r => p c && all_chars p r
  | EmptyString => true
  end.

Definition is_hex (c : ascii) : bool :=
  let n := nat_of_ascii c in
  (is_digit c || ((65 <=? n) && (n <=? 70)) || ((97 <=? n) && (n <=? 102)))%nat.

Definition is_octal (c : ascii) : bool :=
  let n := nat_of_ascii c in ((48 <=? n) && (n <=? 55))%nat.

Definition is_binary (c : ascii) : bool :=
  (c =? "0")%char || (c =? "1")%char.

(** A [NonDecimalIntegerLiteral]: [0x], [0o] or [0b] and at least one digit
    of that base. *)
Definition isNonDecimal (s : string) : bool :=
  match s with
  | String "0"%char (String c (String d r)) =>
      let body := String d r in
      if (c =? "x")%char || (c =? "X")%char then all_chars is_hex body
      else if (c =? "o")%char || (c =? "O")%char then all_chars is_octal body
      else if (c =? "b")%char || (c =? "B")%char then all_chars is_binary body
      else false
  | _ => false
  end.

(** [isNaN(str)] for a trimmed, non-empty string: [Number(str)] is NaN
    unless the whole string is a numeric literal. *)
Definition isNaN (s : string) : bool :=
  match scanDecimal s with
  | Some (_, EmptyString) => false
  | _ => negb (isNonDecimal s)
  end.

(** [parseFloat(str)]: the value of the longest decimal-literal prefix. *)
Definition parseFloat (s : string) : fval :=
  match scanDecimal (ltrim s) with
  | Some (v, _) => v
  | None => FNaN
  end.

Definition digit_string (k : N) : string :=
  NilEmpty.string_of_uint (N.to_uint k).

(** The two decimal digits of [n < 100]. *)
Definition two_digits (n : N) : string :=
  digit_string (n / 10) ++ digit_string (n mod 10).

(** [x.toFixed(2)] for a value below 10^21: with [n] the integer nearest to
    [|x| * 100] (the larger one on a tie), the digits of [n] with a point
    before the last two, and a minus sign when [x < 0]. *)
Definition toFixed2 (x : fval) : string :=
  match x with
  | FDec s m e =>
      let n := Z.to_N (JS.round_int (Z.of_N m) (e + 2)) in
      (if s && negb (m =? 0)%N then "-" else "")
        ++ NilEmpty.string_of_uint (N.to_uint (n / 100)) ++ "."
        ++ two_digits (n mod 100)
  | FInf false => "Infinity"
  | FInf true => "-Infinity"
  | FNaN => "NaN"
  end.

End Str.

(** ** The [Decimal] object (lines 6-63) *)

(** [Decimal.toCents] *)
Definition toCents (decimalStr : string) : num :=
  let str := Str.trim decimalStr in
  if (str =? "")%string || Str.isNaN str then Fin 0
  else JS.round (JS.times100 (Str.parseFloat str)).

(** [Decimal.fromCents] *)
Definition fromCents (cents : num) : string :=
  Str.toFixed2 (JS.div100 cents).

(** [Decimal.add] *)
Definition add (a b : string) : string :=
  fromCents (JS.add (toCents a) (toCents b)).


(** [Decimal.compare] *)
Definition compare (a b : string) : num :=
  JS.sub (toCents a) (toCents b).

(** [shares[i]++]; past the end the array grows by an entry holding NaN
    ([undefined + 1]). *)
Definition incr_at (i : nat) (shares : list num) : list num :=
  match shares !! i with
  | Some v => <[i := JS.add v (Fin 1)]> shares
  | None => shares ++ [NaN]
  end.

(** The body [shares[i]++] run for [i], [i+1], ..., [k] times. *)
Fixpoint incr_from (k i : nat) (shares : list num) : list num :=
  match k with
  | O => shares
  | S k' => incr_from k' (S i) (incr_at i shares)
  end.

(** How often [for (let i = 0; i < remainder; i++)] runs its body.  The
    remainder is an integer or NaN when [parts] is positive
    ([remainder_of_toCents] below), so the bound is never +Infinity. *)
Definition iterations_below (remainder : num) : nat :=
  match remainder with
  | Fin r => Z.to_nat r
  | _ => O
  end.

(** [Decimal.divideEqually], for an integer [parts]. *)
Definition divideEqually (amount : string) (parts : Z) : list string :=
  if parts <=? 0 then []
  else
    let totalCents := toCents amount in
    let baseCents := JS.floor_div totalCents parts in
    let remainder := JS.sub totalCents (JS.mul baseCents (Fin parts)) in
    let shares := replicate (Z.to_nat parts) baseCents in
    let shares := incr_from (iterations_below remainder) 0 shares in
    map fromCents shares.

(** ** Exceptions *)

(** [TypeError] is what the engine throws on a property access on
    [undefined].  [InvalidReference] is the error the specification names
    for a dangling member id; no code path of [src/script.js] constructs
    it. *)
Inductive exn : Type :=
| TypeError
| InvalidReference.

Inductive result (A : Type) : Type :=
| Ok (a : A)
| Err (e : exn).

Arguments Ok {A} a.
Arguments Err {A} e.

#[global] Instance result_ret : MRet result := fun _ a => Ok a.

#[global] Instance result_bind : MBind result := fun _ _ k r =>
  match r with
  | Ok a => k a
  | Err e => Err e
  end.

(** [forEach] with a body that may throw. *)
Fixpoint forEachM {A S : Type} (body : S -> A -> result S) (l : list A) (st : S)
  : result S :=
  match l with
  | [] => Ok st
  | x :: l' => st' ← body st x; forEachM body l' st'
  end.

(** ** The [Calculator] object (lines 211-311) *)

Record Member : Type := mkMember {
  id : string;
  memberName : string
}.

Record Expense : Type := mkExpense {
  amount : string;
  paidBy : string;
  splitBetween : list string
}.

Record Balance : Type := mkBalance {
  memberId : string;
  name : string;
  totalPaid : string;
  totalOwed : string;
  netBalance : string
}.

(** An entry of [balanceMap]. *)
Record Totals : Type := mkTotals {
  paidCents : num;
  owedCents : num
}.

(** [obj[key] = v] on an object whose keys keep their insertion order. *)
Fixpoint obj_set {V : Type} (key : string) (v : V) (obj : list (string * V))
  : list (string * V) :=
  match obj with
  | [] => [(key, v)]
  | (k, w) :: obj' =>
      if decide (k = key) then (k, v) :: obj' else (k, w) :: obj_set key v obj'
  end.

(** [amounts[index]] as the argument of [toCents]: a missing entry is
    [undefined], which [String] turns into the text "undefined". *)
Definition entry (amounts : list string) (index : nat) : string :=
  default "undefined" (amounts !! index).

(** The [forEach] of [calculateExpenseShares], from [index] on. *)
Fixpoint fill_shares (amounts : list string) (index : nat) (ids : list string)
    (shares : list (string * string)) : list (string * string) :=
  match ids with
  | [] => shares
  | memberId :: ids' =>
      fill_shares amounts (S index) ids' (obj_set memberId (entry amounts index) shares)
  end.

(** [Calculator.calculateExpenseShares] *)
Definition calculateExpenseShares (expense : Expense) : list (string * string) :=
  let splitCount := length (splitBetween expense) in
  if (splitCount =? 0)%nat then []
  else
    let amounts := divideEqually (amount expense) (Z.of_nat splitCount) in
    fill_shares amounts 0 (splitBetween expense) [].

(** [balanceMap[key].paidCents += cents]; [balanceMap[key]] is [undefined]
    for an id that is not a member's, and the access throws. *)
Definition add_paid (key : string) (cents : num) (balanceMap : gmap string Totals)
  : result (gmap string Totals) :=
  match balanceMap !! key with
  | Some data =>
      Ok (<[key := mkTotals (JS.add (paidCents data) cents) (owedCents data)]> balanceMap)
  | None => Err TypeError
  end.

(** [balanceMap[key].owedCents += cents] *)
Definition add_owed (key : string) (cents : num) (balanceMap : gmap string Totals)
  : result (gmap string Totals) :=
  match balanceMap !! key with
  | Some data =>
      Ok (<[key := mkTotals (paidCents data) (JS.add (owedCents data) cents)]> balanceMap)
  | None => Err TypeError
  end.

(** The body of [expenses.forEach] (lines 244-251). *)
Definition aggregate (balanceMap : gmap string Totals) (expense : Expense)
  : result (gmap string Totals) :=
  balanceMap' ← add_paid (paidBy expense) (toCents (amount expense)) balanceMap;
  forEachM (fun bm '(memberId, shareAmount) => add_owed memberId (toCents shareAmount) bm)
    (calculateExpenseShares expense) balanceMap'.

(** [balanceMap] after [members.forEach] (lines 236-242). *)
Definition init_map (members : list Member) : gmap string Totals :=
  foldl (fun bm member => <[id member := mkTotals (Fin 0) (Fin 0)]> bm) ∅ members.

(** The body of [balances.forEach] (lines 253-258); every [memberId] of
    [balances] is a key of [balanceMap]. *)
Definition finish (balanceMap : gmap string Totals) (member : Member) : result Balance :=
  match balanceMap !! id member with
  | Some data =>
      Ok (mkBalance (id member) (memberName member)
            (fromCents (paidCents data))
            (fromCents (owedCents data))
            (fromCents (JS.sub (paidCents data) (owedCents data))))
  | None => Err TypeError
  end.

Fixpoint mapM_result {A B : Type} (f : A -> result B) (l : list A) : result (list B) :=
  match l with
  | [] => Ok []
  | x :: l' => y ← f x; ys ← mapM_result f l'; Ok (y :: ys)
  end.

(** [Calculator.calculateBalances] *)
Definition calculateBalances (members : list Member) (expenses : list Expense)
  : result (list Balance) :=
  balanceMap ← forEachM aggregate expenses (init_map members);
  mapM_result (finish balanceMap) members.


(** An entry of [creditors] or [debtors]. *)
Record Party : Type := mkParty {
  partyId : string;
  partyName : string;
  amountCents : num
}.

Record Settlement : Type := mkSettlement {
  from : string;
  fromId : string;
  to : string;
  toId : string;
  settlementAmount : string
}.

(** The comparator [(a, b) => b.amountCents - a.amountCents]. *)
Definition by_amount_desc (a b : Party) : num :=
  JS.sub (amountCents b) (amountCents a).

(** [Array.prototype.sort] is stable: [x], which stood before every entry of
    the sorted [l], moves behind [y] only when the comparator puts it
    strictly after [y]. *)
Fixpoint sort_insert {A : Type} (cmp : A -> A -> num) (x : A) (l : list A)
  : list A :=
  match l with
  | [] => [x]
  | y :: l' =>
      if JS.gtb (cmp x y) (Fin 0) then y :: sort_insert cmp x l'
      else x :: y :: l'
  end.

Definition sort {A : Type} (cmp : A -> A -> num) (l : list A) : list A :=
  foldr (sort_insert cmp) [] l.

(** [creditors] (lines 266-273) *)
Definition creditors_of (balances : list Balance) : list Party :=
  sort by_amount_desc
    (map (fun b => mkParty (memberId b) (name b) (toCents (netBalance b)))
       (filter (fun b => JS.gtb (compare (netBalance b) "0.00") (Fin 0) = true)
          balances)).

(** [debtors] (lines 275-282) *)
Definition debtors_of (balances : list Balance) : list Party :=
  sort by_amount_desc
    (map (fun b => mkParty (memberId b) (name b) (JS.abs (toCents (netBalance b))))
       (filter (fun b => JS.ltb (compare (netBalance b) "0.00") (Fin 0) = true)
          balances)).

(** The variables of the matching loop (lines 284-307). *)
Record Loop : Type := mkLoop {
  creditors : list Party;
  debtors : list Party;
  i : nat;
  j : nat;
  settlements : list Settlement
}.

Definition set_amount (p : Party) (cents : num) : Party :=
  mkParty (partyId p) (partyName p) cents.

(** The loop body (lines 287-306) for the entries under the cursors. *)
Definition settle (st : Loop) (creditor debtor : Party) : Loop :=
  let settlementCents := JS.min (amountCents creditor) (amountCents debtor) in
  let settlements' :=
    if JS.gtb settlementCents (Fin 0) then
      settlements st ++
        [mkSettlement (partyName debtor) (partyId debtor)
           (partyName creditor) (partyId creditor) (fromCents settlementCents)]
    else settlements st in
  let creditor' := set_amount creditor (JS.sub (amountCents creditor) settlementCents) in
  let debtor' := set_amount debtor (JS.sub (amountCents debtor) settlementCents) in
  mkLoop (<[i st := creditor']> (creditors st))
         (<[j st := debtor']> (debtors st))
         (if JS.is_zero (amountCents creditor') then S (i st) else i st)
         (if JS.is_zero (amountCents debtor') then S (j st) else j st)
         settlements'.

(** One run of the loop; [None] when the loop condition
    [i < creditors.length && j < debtors.length] is false. *)
Definition iteration (st : Loop) : option Loop :=
  match creditors st !! i st, debtors st !! j st with
  | Some creditor, Some debtor => Some (settle st creditor debtor)
  | _, _ => None
  end.

(** The [while] loop, run for at most [fuel] iterations: the final
    variables and the number of iterations made, or [None] when the loop is
    still running after [fuel] iterations. *)
Fixpoint while (fuel : nat) (st : Loop) : option (Loop * nat) :=
  match iteration st with
  | None => Some (st, O)
  | Some st' =>
      match fuel with
      | O => None
      | S fuel' =>
          match while fuel' st' with
          | Some (final, n) => Some (final, S n)
          | None => None
          end
      end
  end.

Definition start (balances : list Balance) : Loop :=
  mkLoop (creditors_of balances) (debtors_of balances) 0 0 [].

(** [Calculator.calculateSettlements], the loop given [fuel] iterations. *)
Definition calculateSettlements_fuel (fuel : nat) (balances : list Balance)
  : option (list Settlement) :=
  match while fuel (start balances) with
  | Some (final, _) => Some (settlements final)
  | None => None
  end.

(** [Calculator.calculateSettlements]: one iteration for every creditor and
    debtor is enough whenever the loop ends at all. *)
Definition calculateSettlements (balances : list Balance) : option (list Settlement) :=
  calculateSettlements_fuel
    (length (creditors_of balances) + length (debtors_of balances)) balances.


(** ** The same code over a store of objects

    In the functions above every array and object is a value.  Here the
    arrays and records the code allocates, reads and writes are objects in
    a store, reached through their addresses, so that writing through one
    reference is seen through every other: this is the model in which
    "the arguments are not mutated" is a statement. *)

Module Store.

Abbreviation addr := nat (only parsing).

Inductive object : Type :=
| OArray (items : list addr)                 (* an array of objects *)
| OStrings (items : list string)             (* an array of strings *)
| ONumbers (items : list num)                (* an array of numbers *)
| OMember (m : Member)
| OExpense (amount paidBy : string) (splitBetween : addr)
| OBalance (b : Balance)
| OTotals (t : Totals)
| ODict (entries : gmap string addr)         (* [balanceMap] *)
| OShares (entries : list (string * string)) (* [shares] *)
| OParty (p : Party)
| OSettlement (x : Settlement).

Abbreviation store := (list object).

(** A computation on the store: [None] when it is stuck on an object of
    the wrong kind or out of fuel, otherwise the new store and a value or
    a thrown exception. *)
Definition M (A : Type) : Type := store -> option (store * result A).

#[global] Instance M_ret : MRet M := fun _ a h => Some (h, Ok a).

#[global] Instance M_bind : MBind M := fun _ _ k m h =>
  match m h with
  | Some (h', Ok a) => k a h'
  | Some (h', Err e) => Some (h', Err e)
  | None => None
  end.

Definition throw {A : Type} (e : exn) : M A := fun h => Some (h, Err e).

Definition stuck {A : Type} : M A := fun _ => None.

(** A new object. *)
Definition alloc (o : object) : M addr := fun h => Some (h ++ [o], Ok (length h)).

Definition load (a : addr) : M object := fun h =>
  match h !! a with
  | Some o => Some (h, Ok o)
  | None => None
  end.

(** A write to the object at [a]. *)
Definition put (a : addr) (o : object) : M unit := fun h =>
  if decide (a < length h)%nat then Some (<[a := o]> h, Ok tt) else None.

Definition load_array (a : addr) : M (list addr) :=
  o ← load a; match o with OArray items => mret items | _ => stuck end.

Definition load_strings (a : addr) : M (list string) :=
  o ← load a; match o with OStrings items => mret items | _ => stuck end.

Definition load_numbers (a : addr) : M (list num) :=
  o ← load a; match o with ONumbers items => mret items | _ => stuck end.

Definition load_member (a : addr) : M Member :=
  o ← load a; match o with OMember m => mret m | _ => stuck end.

Definition load_balance (a : addr) : M Balance :=
  o ← load a; match o with OBalance b => mret b | _ => stuck end.

Definition load_totals (a : addr) : M Totals :=
  o ← load a; match o with OTotals t => mret t | _ => stuck end.

Definition load_dict (a : addr) : M (gmap string addr) :=
  o ← load a; match o with ODict d => mret d | _ => stuck end.

Definition load_shares (a : addr) : M (list (string * string)) :=
  o ← load a; match o with OShares l => mret l | _ => stuck end.

Definition load_party (a : addr) : M Party :=
  o ← load a; match o with OParty p => mret p | _ => stuck end.

(** [forEach] *)
Fixpoint for_each {A : Type} (body : A -> M unit) (l : list A) : M unit :=
  match l with
  | [] => mret tt
  | x :: l' => _ ← body x; for_each body l'
  end.

(** The elements a callback maps, in order. *)
Fixpoint map_each {A B : Type} (f : A -> M B) (l : list A) : M (list B) :=
  match l with
  | [] => mret []
  | x :: l' => y ← f x; ys ← map_each f l'; mret (y :: ys)
  end.

(** [array.filter(keep)] on an array of balances: a new array. *)
Definition filter_balances (keep : Balance -> bool) (array : addr) : M addr :=
  items ← load_array array;
  flags ← map_each (fun a => b ← load_balance a; mret (a, keep b)) items;
  alloc (OArray (map fst (List.filter snd flags))).

(** [array.map(b => ({...}))]: a new object for every element, in a new
    array. *)
Definition map_to_parties (f : Balance -> Party) (array : addr) : M addr :=
  items ← load_array array;
  parties ← map_each (fun a => b ← load_balance a; alloc (OParty (f b))) items;
  alloc (OArray parties).

(** [array.sort(cmp)]: sorts the array in place and returns it. *)
Definition sort_parties (cmp : Party -> Party -> num) (array : addr) : M addr :=
  items ← load_array array;
  parties ← map_each (fun a => p ← load_party a; mret (a, p)) items;
  _ ← put array (OArray (map fst (sort (fun x y => cmp x.2 y.2) parties)));
  mret array.

(** [settlements.push({...})] *)
Definition push (array : addr) (x : Settlement) : M unit :=
  a ← alloc (OSettlement x);
  items ← load_array array;
  put array (OArray (items ++ [a])).

(** The matching loop (lines 286-307). *)
Fixpoint while_loop (fuel : nat) (creditors debtors settlements : addr) (i j : nat)
  : M unit :=
  cs ← load_array creditors;
  ds ← load_array debtors;
  match cs !! i, ds !! j with
  | Some creditor, Some debtor =>
      match fuel with
      | O => stuck
      | S fuel' =>
          c ← load_party creditor;
          d ← load_party debtor;
          let settlementCents := JS.min (amountCents c) (amountCents d) in
          _ ← (if JS.gtb settlementCents (Fin 0) then
                 push settlements
                   (mkSettlement (partyName d) (partyId d) (partyName c) (partyId c)
                      (fromCents settlementCents))
               else mret tt);
          c ← load_party creditor;
          _ ← put creditor (OParty (set_amount c (JS.sub (amountCents c) settlementCents)));
          d ← load_party debtor;
          _ ← put debtor (OParty (set_amount d (JS.sub (amountCents d) settlementCents)));
          c ← load_party creditor;
          d ← load_party debtor;
          while_loop fuel' creditors debtors settlements
            (if JS.is_zero (amountCents c) then S i else i)
            (if JS.is_zero (amountCents d) then S j else j)
      end
  | _, _ => mret tt
  end.

(** The chain [balances.filter(keep).map(f).sort(cmp)]. *)
Definition filter_map_sort (keep : Balance -> bool) (f : Balance -> Party)
    (cmp : Party -> Party -> num) (balances : addr) : M addr :=
  filtered ← filter_balances keep balances;
  mapped ← map_to_parties f filtered;
  sort_parties cmp mapped.

(** [Calculator.calculateSettlements] on the array at [balances]. *)
Definition calculateSettlements (fuel : nat) (balances : addr) : M addr :=
  settlements ← alloc (OArray []);
  creditors ← filter_map_sort
    (fun b => JS.gtb (compare (netBalance b) "0.00") (Fin 0))
    (fun b => mkParty (memberId b) (name b) (toCents (netBalance b)))
    by_amount_desc balances;
  debtors ← filter_map_sort
    (fun b => JS.ltb (compare (netBalance b) "0.00") (Fin 0))
    (fun b => mkParty (memberId b) (name b) (JS.abs (toCents (netBalance b))))
    by_amount_desc balances;
  _ ← while_loop fuel creditors debtors settlements 0 0;
  mret settlements.

Definition load_expense (a : addr) : M (string * string * addr) :=
  o ← load a;
  match o with
  | OExpense amount paidBy splitBetween => mret (amount, paidBy, splitBetween)
  | _ => stuck
  end.

(** [Decimal.divideEqually]: the array of shares is filled, incremented in
    place, and mapped to a new array of strings. *)
Definition divideEqually (amount : string) (parts : Z) : M addr :=
  if parts <=? 0 then alloc (OStrings [])
  else
    let totalCents := toCents amount in
    let baseCents := JS.floor_div totalCents parts in
    let remainder := JS.sub totalCents (JS.mul baseCents (Fin parts)) in
    shares ← alloc (ONumbers (replicate (Z.to_nat parts) baseCents));
    _ ← for_each (fun i => items ← load_numbers shares;
                           put shares (ONumbers (incr_at i items)))
          (seq 0 (iterations_below remainder));
    items ← load_numbers shares;
    alloc (OStrings (map fromCents items)).

(** [Calculator.calculateExpenseShares] *)
Definition calculateExpenseShares (expense : addr) : M addr :=
  shares ← alloc (OShares []);
  '(amount, _, splitBetween) ← load_expense expense;
  ids ← load_strings splitBetween;
  if (length ids =? 0)%nat then mret shares
  else
    amounts ← divideEqually amount (Z.of_nat (length ids));
    _ ← for_each (fun '(index, memberId) =>
                    items ← load_strings amounts;
                    entries ← load_shares shares;
                    put shares (OShares (obj_set memberId (entry items index) entries)))
          (zip (seq 0 (length ids)) ids);
    mret shares.

(** [balanceMap[key]] as the object of a property access: a [TypeError]
    when there is no such entry. *)
Definition entry_of (balanceMap : addr) (key : string) : M addr :=
  d ← load_dict balanceMap;
  match d !! key with
  | Some t => mret t
  | None => throw TypeError
  end.

(** [balanceMap[key].paidCents += cents] *)
Definition add_paid (balanceMap : addr) (key : string) (cents : num) : M unit :=
  t ← entry_of balanceMap key;
  data ← load_totals t;
  put t (OTotals (mkTotals (JS.add (paidCents data) cents) (owedCents data))).

(** [balanceMap[key].owedCents += cents] *)
Definition add_owed (balanceMap : addr) (key : string) (cents : num) : M unit :=
  t ← entry_of balanceMap key;
  data ← load_totals t;
  put t (OTotals (mkTotals (paidCents data) (JS.add (owedCents data) cents))).

(** The body of [expenses.forEach] (lines 244-251). *)
Definition aggregate (balanceMap : addr) (expense : addr) : M unit :=
  '(amount, paidBy, _) ← load_expense expense;
  _ ← add_paid balanceMap paidBy (toCents amount);
  shares ← calculateExpenseShares expense;
  entries ← load_shares shares;
  for_each (fun '(memberId, shareAmount) =>
              add_owed balanceMap memberId (toCents shareAmount)) entries.

(** The body of [balances.forEach] (lines 253-258): three assignments to
    the fields of [balance]. *)
Definition finish (balanceMap : addr) (balance : addr) : M unit :=
  b ← load_balance balance;
  t ← entry_of balanceMap (memberId b);
  data ← load_totals t;
  b ← load_balance balance;
  _ ← put balance (OBalance (mkBalance (memberId b) (name b)
                     (fromCents (paidCents data)) (totalOwed b) (netBalance b)));
  b ← load_balance balance;
  _ ← put balance (OBalance (mkBalance (memberId b) (name b)
                     (totalPaid b) (fromCents (owedCents data)) (netBalance b)));
  b ← load_balance balance;
  put balance (OBalance (mkBalance (memberId b) (name b)
                 (totalPaid b) (totalOwed b)
                 (fromCents (JS.sub (paidCents data) (owedCents data))))).

(** [Calculator.calculateBalances] on the arrays at [members] and
    [expenses]. *)
Definition calculateBalances (members expenses : addr) : M addr :=
  ms ← load_array members;
  items ← map_each (fun a => m ← load_member a;
                             alloc (OBalance (mkBalance (id m) (memberName m)
                                                "0.00" "0.00" "0.00"))) ms;
  balances ← alloc (OArray items);
  balanceMap ← alloc (ODict ∅);
  ms ← load_array members;
  _ ← for_each (fun a => m ← load_member a;
                         t ← alloc (OTotals (mkTotals (Fin 0) (Fin 0)));
                         d ← load_dict balanceMap;
                         put balanceMap (ODict (<[id m := t]> d))) ms;
  es ← load_array expenses;
  _ ← for_each (aggregate balanceMap) es;
  bs ← load_array balances;
  _ ← for_each (finish balanceMap) bs;
  mret balances.



(** The balances an array holds, and the settlements an array holds. *)
Definition read_balances (array : addr) : M (list Balance) :=
  items ← load_array array; map_each load_balance items.

Definition read_settlements (array : addr) : M (list Settlement) :=
  items ← load_array array;
  map_each (fun a => o ← load a;
                     match o with OSettlement x => mret x | _ => stuck end) items.


End Store.

(** * Properties *)

(** ** Printing and scanning digits *)

Section Digits.

Local Open Scope string_scope.

Definition starts_nondigit (r : string) : Prop :=
  match r with
  | String c _ => Str.digit_of_ascii c = None
  | EmptyString => True
  end.

Lemma scanDigits_nondigit r :
  starts_nondigit r -> Str.scanDigits r = (Nil, r).
Proof.
  destruct r as [|c r]; simpl; [reflexivity|].
  intros ->. reflexivity.
Qed.

Lemma scanDigits_print u r :
  starts_nondigit r ->
  Str.scanDigits (NilEmpty.string_of_uint u ++ r) = (u, r).
Proof.
  intros Hr. induction u; simpl; rewrite ?IHu; try reflexivity.
  now apply scanDigits_nondigit.
Qed.

Lemma digit_cases (k : N) :
  (k < 10)%N ->
  k = 0%N \/ k = 1%N \/ k = 2%N \/ k = 3%N \/ k = 4%N \/
  k = 5%N \/ k = 6%N \/ k = 7%N \/ k = 8%N \/ k = 9%N.
Proof. lia. Qed.

Lemma digit_pair_scan (q m : N) :
  (q < 10)%N -> (m < 10)%N ->
  exists f, Str.digit_string q ++ Str.digit_string m = NilEmpty.string_of_uint f
            /\ Decimal.nb_digits f = 2%nat /\ N.of_uint f = (10 * q + m)%N.
Proof.
  intros Hq Hm.
  exists (Decimal.app (N.to_uint q) (N.to_uint m)).
  destruct (digit_cases _ Hq) as [E|[E|[E|[E|[E|[E|[E|[E|[E|E]]]]]]]]];
  destruct (digit_cases _ Hm) as [F|[F|[F|[F|[F|[F|[F|[F|[F|F]]]]]]]]];
  subst q m; (split; [reflexivity|split; reflexivity]).
Qed.

Lemma two_digits_scan (b : N) :
  (b < 100)%N ->
  exists f, Str.two_digits b = NilEmpty.string_of_uint f
            /\ Decimal.nb_digits f = 2%nat /\ N.of_uint f = b.
Proof.
  intros Hb.
  assert (Hq : (b / 10 < 10)%N) by (apply N.Div0.div_lt_upper_bound; lia).
  assert (Hm : (b mod 10 < 10)%N) by (apply N.mod_lt; lia).
  destruct (digit_pair_scan _ _ Hq Hm) as (f & H1 & H2 & H3).
  exists f. rewrite H3. repeat split; try assumption.
  symmetry. apply N.div_mod. lia.
Qed.


Lemma digit_not_ws c d : Str.digit_of_ascii c = Some d -> Str.is_ws c = false.
Proof.
  destruct c as [[] [] [] [] [] [] [] []]; simpl; intros H;
    try discriminate; reflexivity.
Qed.

Lemma digit_not_sign c d :
  Str.digit_of_ascii c = Some d -> c <> "-"%char /\ c <> "+"%char /\ c <> "I"%char.
Proof.
  destruct c as [[] [] [] [] [] [] [] []]; simpl; intros H;
    try discriminate; repeat split; discriminate.
Qed.

Lemma print_first u :
  u <> Nil ->
  exists c d r, NilEmpty.string_of_uint u = String c r /\ Str.digit_of_ascii c = Some d.
Proof.
  destruct u; [congruence|..]; intros _; simpl; eauto.
Qed.

(** [rtrim] leaves a string alone whose last character is no white space. *)
Fixpoint ends_visible (s : string) : bool :=
  match s with
  | EmptyString => false
  | String c EmptyString => negb (Str.is_ws c)
  | String _ r => ends_visible r
  end.

Lemma rtrim_id s : ends_visible s = true -> Str.rtrim s = s.
Proof.
  induction s as [|c s IH]; [discriminate|].
  destruct s as [|c' s'].
  - simpl. intros H. destruct (Str.is_ws c); [discriminate|reflexivity].
  - intros H. change (ends_visible (String c' s') = true) in H.
    specialize (IH H). cbn [Str.rtrim]. cbn [Str.rtrim] in IH. rewrite IH.
    reflexivity.
Qed.

Lemma ends_visible_app x y :
  y <> EmptyString -> ends_visible (x ++ y) = ends_visible y.
Proof.
  intros Hy. induction x as [|c x IH]; [reflexivity|].
  change (String c x ++ y) with (String c (x ++ y)).
  cbn [ends_visible]. destruct (x ++ y) eqn:E; [|exact IH].
  destruct x; [|discriminate]. change (y = EmptyString) in E. congruence.
Qed.

Lemma ltrim_id c r : Str.is_ws c = false -> Str.ltrim (String c r) = String c r.
Proof. simpl. intros ->. reflexivity. Qed.

Lemma append_empty_r (s : string) : s ++ "" = s.
Proof.
  induction s as [|c s IH]; [reflexivity|].
  change (String c s ++ "") with (String c (s ++ "")). now rewrite IH.
Qed.

Definition sign_string (sg : bool) : string := if sg then "-" else "".

(** A literal [<sign><digits>.<two digits>]. *)
Definition literal2 (sg : bool) (u f : uint) : string :=
  sign_string sg ++ NilEmpty.string_of_uint u ++ "." ++ NilEmpty.string_of_uint f.

Lemma two_digit_uint f :
  Decimal.nb_digits f = 2%nat ->
  exists c1 c2 d1 d2, NilEmpty.string_of_uint f = String c1 (String c2 "")
    /\ Str.digit_of_ascii c1 = Some d1 /\ Str.digit_of_ascii c2 = Some d2.
Proof.
  intros H.
  destruct f as [|f|f|f|f|f|f|f|f|f|f]; try discriminate;
  destruct f as [|f|f|f|f|f|f|f|f|f|f]; try discriminate;
  destruct f; try discriminate; simpl; eauto 10.
Qed.

Lemma scanDecimal_unsigned u f :
  u <> Nil -> Decimal.nb_digits f = 2%nat ->
  forall sg,
  (let (u', r1) := Str.scanDigits (NilEmpty.string_of_uint u ++ "." ++ NilEmpty.string_of_uint f) in
   let '(f', r2) :=
     match r1 with
     | String "."%char r =>
         let (f', r') := Str.scanDigits r in
         if Str.is_nil u' && Str.is_nil f' then (Nil, r1) else (f', r')
     | _ => (Nil, r1)
     end in
   if Str.is_nil u' && Str.is_nil f' then None
   else
     let (e, r3) := Str.scanExponent r2 in
     let k := Decimal.nb_digits f' in
     Some (FDec sg (N.of_uint u' * 10 ^ N.of_nat k + N.of_uint f')
             (e - Z.of_nat k), r3))
  = Some (FDec sg (N.of_uint u * 100 + N.of_uint f) (-2), "").
Proof.
  intros Hu Hf sg.
  rewrite scanDigits_print by reflexivity.
  change ("." ++ NilEmpty.string_of_uint f)
    with (String "."%char (NilEmpty.string_of_uint f)).
  cbv iota beta.
  rewrite <- (append_empty_r (NilEmpty.string_of_uint f)) at 1.
  rewrite scanDigits_print by exact I.
  destruct u; [congruence|..]; cbn [Str.is_nil andb]; rewrite Hf; reflexivity.
Qed.

Lemma scanDecimal_literal2 sg u f :
  u <> Nil -> Decimal.nb_digits f = 2%nat ->
  Str.scanDecimal (literal2 sg u f)
  = Some (FDec sg (N.of_uint u * 100 + N.of_uint f) (-2), "").
Proof.
  intros Hu Hf. unfold literal2, Str.scanDecimal.
  destruct (print_first u Hu) as (c & d & r & Hp & Hc).
  destruct (digit_not_sign _ _ Hc) as (Hm & Hpl & HI).
  assert (Hsign : Str.scanSign
            (sign_string sg ++ NilEmpty.string_of_uint u ++ "."
               ++ NilEmpty.string_of_uint f)
          = (sg, NilEmpty.string_of_uint u ++ "." ++ NilEmpty.string_of_uint f)).
  { destruct sg; [reflexivity|].
    change (sign_string false ++ ?x) with x. rewrite Hp.
    change (String c r ++ ?y) with (String c (r ++ y)). unfold Str.scanSign.
    apply Ascii.eqb_neq in Hm, Hpl. now rewrite Hm, Hpl. }
  rewrite Hsign.
  assert (Hpre : String.prefix "Infinity"
            (NilEmpty.string_of_uint u ++ "." ++ NilEmpty.string_of_uint f) = false).
  { rewrite Hp. change (String c r ++ ?y) with (String c (r ++ y)).
    cbn [String.prefix]. destruct (ascii_dec "I" c); [congruence|reflexivity]. }
  rewrite Hpre. now apply scanDecimal_unsigned.
Qed.

Lemma literal2_trim sg u f :
  u <> Nil -> Decimal.nb_digits f = 2%nat ->
  Str.ltrim (literal2 sg u f) = literal2 sg u f
  /\ Str.rtrim (literal2 sg u f) = literal2 sg u f
  /\ literal2 sg u f <> "".
Proof.
  intros Hu Hf.
  destruct (print_first u Hu) as (c & d & r & Hp & Hc).
  destruct (two_digit_uint f Hf) as (c1 & c2 & d1 & d2 & Hpf & _ & Hc2).
  assert (Hhead : exists c0 r0, literal2 sg u f = String c0 r0 /\ Str.is_ws c0 = false).
  { unfold literal2. destruct sg.
    - eexists _, _. split; [reflexivity|reflexivity].
    - exists c, (r ++ "." ++ NilEmpty.string_of_uint f). split.
      + change (sign_string false ++ ?x) with x. now rewrite Hp.
      + eapply digit_not_ws; eauto. }
  destruct Hhead as (c0 & r0 & E & Hws).
  split; [|split].
  - rewrite E. now apply ltrim_id.
  - apply rtrim_id. unfold literal2.
    rewrite !ends_visible_app; rewrite ?Hpf; try discriminate.
    + cbn. now rewrite (digit_not_ws _ _ Hc2).
    + rewrite Hp. discriminate.
  - rewrite E. discriminate.
Qed.

(** [toCents] on a literal with two fractional digits. *)
Lemma toCents_literal2 sg u f :
  u <> Nil -> Decimal.nb_digits f = 2%nat ->
  toCents (literal2 sg u f) = Fin (JS.signed sg (N.of_uint u * 100 + N.of_uint f)).
Proof.
  intros Hu Hf.
  destruct (literal2_trim sg u f Hu Hf) as (Hl & Hr & Hne).
  unfold toCents, Str.trim. rewrite Hl, Hr.
  apply String.eqb_neq in Hne. rewrite Hne.
  unfold Str.isNaN, Str.parseFloat. rewrite Hl, scanDecimal_literal2 by assumption.
  cbn [orb JS.times100 JS.round]. unfold JS.round_int.
  change (-2 + 2) with 0. change (0 <=? 0)%Z with true. cbv iota.
  f_equal. rewrite Z.pow_0_r. lia.
Qed.

Lemma N_to_uint_nonnil (n : N) : N.to_uint n <> Nil.
Proof.
  destruct n; [discriminate|]. apply DecimalPos.Unsigned.to_uint_nonnil.
Qed.

Lemma fromCents_Fin_eq (z : Z) :
  fromCents (Fin z)
  = sign_string (z <? 0)%Z ++ NilEmpty.string_of_uint (N.to_uint (Z.abs_N z / 100))
      ++ "." ++ Str.two_digits (Z.abs_N z mod 100).
Proof.
  unfold fromCents, JS.div100, Str.toFixed2.
  change (-2 + 2)%Z with 0%Z. unfold JS.round_int.
  change (0 <=? 0)%Z with true. cbv iota.
  rewrite Z.pow_0_r, Z.mul_1_r, N2Z.id.
  replace ((z <? 0)%Z && negb (Z.abs_N z =? 0)%N) with (z <? 0)%Z; [reflexivity|].
  destruct (Z.ltb_spec z 0); [|reflexivity].
  destruct (N.eqb_spec (Z.abs_N z) 0); [lia|reflexivity].
Qed.

Lemma fromCents_Fin (z : Z) :
  exists f, Decimal.nb_digits f = 2%nat
    /\ N.of_uint f = (Z.abs_N z mod 100)%N
    /\ fromCents (Fin z) = literal2 (z <? 0)%Z (N.to_uint (Z.abs_N z / 100)) f.
Proof.
  assert (Hb : (Z.abs_N z mod 100 < 100)%N) by (apply N.mod_lt; lia).
  destruct (two_digits_scan _ Hb) as (f & H1 & H2 & H3).
  exists f. repeat split; try assumption.
  rewrite fromCents_Fin_eq, H1. reflexivity.
Qed.

(** Formatting a finite amount of cents and parsing it back is exact. *)
Lemma toCents_fromCents_Fin (z : Z) : toCents (fromCents (Fin z)) = Fin z.
Proof.
  destruct (fromCents_Fin z) as (f & H1 & H2 & ->).
  rewrite toCents_literal2; [|apply N_to_uint_nonnil|assumption].
  rewrite DecimalN.Unsigned.of_to, H2. f_equal.
  rewrite N.mul_comm, <- N.div_mod by lia.
  unfold JS.signed. destruct (Z.ltb_spec z 0); lia.
Qed.

Lemma toCents_fromCents_inf :
  toCents (fromCents PInf) = PInf /\ toCents (fromCents NInf) = NInf
  /\ toCents (fromCents NaN) = Fin 0.
Proof. repeat split; reflexivity. Qed.





End Digits.

(** ** Sums of cents *)

(** The sum of a sequence of amounts, as a [reduce] with [+] from 0. *)
Definition sum_cents (l : list num) : num := foldl JS.add (Fin 0) l.







(** ** [divideEqually] *)


(** The remainder that bounds the loop of [divideEqually] is an integer or
    NaN. *)
Lemma remainder_of_toCents (total : num) (parts : Z) :
  0 < parts ->
  JS.sub total (JS.mul (JS.floor_div total parts) (Fin parts)) <> PInf.
Proof.
  intros Hp. destruct total; cbn; try discriminate.
  all: destruct (Z.eqb_spec parts 0); [lia|].
  all: destruct (Z.ltb_spec 0 parts); [cbn; discriminate|lia].
Qed.



Lemma map_replicate {A B : Type} (f : A -> B) (k : nat) (x : A) :
  map f (replicate k x) = replicate k (f x).
Proof. induction k as [|k IH]; [reflexivity|]. cbn. now rewrite IH. Qed.





(** C6 as stated fails on the code: [divideEqually] takes a decimal amount,
    not minor units, so the call with 10 and 3 splits 1000 cents. *)
Lemma divideEqually_10_3_counterexample :
  divideEqually "10" 3 = ["3.34"; "3.33"; "3.33"]
  /\ divideEqually "10" 3 <> ["4"; "3"; "3"]
  /\ map toCents (divideEqually "10" 3) <> [Fin 4; Fin 3; Fin 3].
Proof. repeat split; vm_compute; discriminate. Qed.

(** C6, amended.  With the amount 0.10, that is 10 minor units, and part
    count 3, [divideEqually] returns 0.04, 0.03, 0.03: in minor units the
    shares 4, 3, 3, whose total is 10 and whose single remainder unit is in
    the first share. *)
Theorem divideEqually_ten_cents :
  toCents "0.10" = Fin 10
  /\ divideEqually "0.10" 3 = ["0.04"; "0.03"; "0.03"]
  /\ map toCents (divideEqually "0.10" 3) = [Fin 4; Fin 3; Fin 3]
  /\ sum_cents (map toCents (divideEqually "0.10" 3)) = Fin 10.
Proof. repeat split. Qed.

(** C7.  For every amount and every part count that is zero or negative,
    [divideEqually] returns the empty sequence; the guard precedes the
    division, so no division by zero is evaluated. *)
Theorem divideEqually_no_parts (amount : string) (parts : Z) :
  parts <= 0 -> divideEqually amount parts = [].
Proof.
  intros H. unfold divideEqually. destruct (Z.leb_spec parts 0); [reflexivity|lia].
Qed.

Lemma divideEqually_no_parts_witness :
  divideEqually "12.50" 0 = [] /\ divideEqually "12.50" (-4) = [].
Proof.
  split; [apply (divideEqually_no_parts "12.50" 0)
         |apply (divideEqually_no_parts "12.50" (-4))]; lia.
Defined.

(** ** Money round trip *)








(** ** Blank and non-numeric input *)





(** ** The ledger: dangling references *)

Section Ledger_errors.

Implicit Types (bm : gmap string Totals) (key : string).

Lemma add_paid_dom key cents bm :
  (key ∈ dom bm -> exists bm', add_paid key cents bm = Ok bm' /\ dom bm' = dom bm)
  /\ (key ∉ dom bm -> add_paid key cents bm = Err TypeError).
Proof.
  unfold add_paid. split; intros H.
  - destruct (proj1 (elem_of_dom _ _) H) as [data Hd].
    rewrite Hd. eexists. split; [reflexivity|].
    rewrite dom_insert_L. set_solver.
  - apply not_elem_of_dom in H. now rewrite H.
Qed.

Lemma add_owed_dom key cents bm :
  (key ∈ dom bm -> exists bm', add_owed key cents bm = Ok bm' /\ dom bm' = dom bm)
  /\ (key ∉ dom bm -> add_owed key cents bm = Err TypeError).
Proof.
  unfold add_owed. split; intros H.
  - destruct (proj1 (elem_of_dom _ _) H) as [data Hd].
    rewrite Hd. eexists. split; [reflexivity|].
    rewrite dom_insert_L. set_solver.
  - apply not_elem_of_dom in H. now rewrite H.
Qed.

Definition owe (bm : gmap string Totals) (share : string * string)
  : result (gmap string Totals) :=
  let '(memberId, shareAmount) := share in
  add_owed memberId (toCents shareAmount) bm.

Lemma aggregate_owe bm expense :
  aggregate bm expense
  = (bm' ← add_paid (paidBy expense) (toCents (amount expense)) bm;
     forEachM owe (calculateExpenseShares expense) bm').
Proof. reflexivity. Qed.

Lemma owe_all_dom (shares : list (string * string)) bm :
  (Forall (fun share => share.1 ∈ dom bm) shares ->
     exists bm', forEachM owe shares bm = Ok bm' /\ dom bm' = dom bm)
  /\ (Exists (fun share => share.1 ∉ dom bm) shares ->
     forEachM owe shares bm = Err TypeError).
Proof.
  revert bm. induction shares as [|[k v] shares IH]; intros bm.
  - split; [eauto|]. intros H. inversion H.
  - destruct (decide (k ∈ dom bm)) as [Hk|Hk].
    + destruct (proj1 (add_owed_dom k (toCents v) bm) Hk) as (bm1 & H1 & Hd).
      cbn [forEachM owe]. rewrite H1. cbn. specialize (IH bm1). rewrite Hd in IH.
      split.
      * intros H. inversion H; subst. now apply IH.
      * intros H. inversion H; subst; [contradiction|]. now apply IH.
    + cbn [forEachM owe]. rewrite (proj2 (add_owed_dom k (toCents v) bm) Hk).
      split; [|reflexivity]. intros H. inversion H; subst. contradiction.
Qed.

Lemma obj_set_keys {V : Type} key (v : V) (obj : list (string * V)) k :
  k ∈ map fst (obj_set key v obj) <-> k = key \/ k ∈ map fst obj.
Proof.
  induction obj as [|[k' w] obj IH]; cbn [obj_set map fst].
  - set_solver.
  - destruct (decide (k' = key)) as [->|Hne]; cbn [map fst];
      rewrite !elem_of_cons; [|rewrite IH]; tauto.
Qed.

Lemma fill_shares_keys amounts index ids shares k :
  k ∈ map fst (fill_shares amounts index ids shares)
  <-> k ∈ ids \/ k ∈ map fst shares.
Proof.
  revert index shares. induction ids as [|x ids IH]; intros index shares;
    cbn [fill_shares].
  - set_solver.
  - rewrite IH, obj_set_keys, elem_of_cons. tauto.
Qed.

Lemma calculateExpenseShares_keys expense k :
  k ∈ map fst (calculateExpenseShares expense) <-> k ∈ splitBetween expense.
Proof.
  unfold calculateExpenseShares.
  destruct (splitBetween expense) as [|x ids] eqn:E; [reflexivity|].
  cbn [length Nat.eqb]. rewrite fill_shares_keys. cbn [map]. set_solver.
Qed.

(** An expense whose payer and participants all are keys of [balanceMap]. *)
Definition resolves (bm : gmap string Totals) (expense : Expense) : Prop :=
  paidBy expense ∈ dom bm /\ Forall (fun k => k ∈ dom bm) (splitBetween expense).

#[global] Instance resolves_dec bm expense : Decision (resolves bm expense).
Proof. unfold resolves. apply _. Defined.

Lemma aggregate_dom bm expense :
  (resolves bm expense ->
     exists bm', aggregate bm expense = Ok bm' /\ dom bm' = dom bm)
  /\ (~ resolves bm expense -> aggregate bm expense = Err TypeError).
Proof.
  rewrite aggregate_owe.
  destruct (decide (paidBy expense ∈ dom bm)) as [Hp|Hp].
  - destruct (proj1 (add_paid_dom (paidBy expense) (toCents (amount expense)) bm) Hp)
      as (bm1 & H1 & Hd).
    rewrite H1. cbn [mbind result_bind].
    pose proof (owe_all_dom (calculateExpenseShares expense) bm1) as [Hok Herr].
    rewrite Hd in Hok, Herr. split.
    + intros [_ Hall]. destruct Hok as (bm' & H2 & Hd2).
      * apply Forall_forall. intros [k v] Hin. cbn.
        rewrite Forall_forall in Hall. apply Hall.
        apply calculateExpenseShares_keys. apply list_elem_of_fmap.
        exists (k, v). split; [reflexivity|exact Hin].
      * exists bm'. split; [exact H2|congruence].
    + intros Hn. apply Herr. apply Exists_exists.
      assert (Hex : Exists (fun k => k ∉ dom bm) (splitBetween expense)).
      { apply not_Forall_Exists; [apply _|]. intros Hall. apply Hn. now split. }
      apply Exists_exists in Hex as (k & Hin & Hk).
      apply calculateExpenseShares_keys in Hin.
      apply list_elem_of_fmap in Hin as ([k' v] & -> & Hin). eauto.
  - rewrite (proj2 (add_paid_dom _ _ bm) Hp). split; [|reflexivity].
    intros [? _]. contradiction.
Qed.

Lemma aggregate_all_dom (expenses : list Expense) bm :
  (Forall (resolves bm) expenses ->
     exists bm', forEachM aggregate expenses bm = Ok bm' /\ dom bm' = dom bm)
  /\ (Exists (fun e => ~ resolves bm e) expenses ->
     forEachM aggregate expenses bm = Err TypeError).
Proof.
  revert bm. induction expenses as [|e expenses IH]; intros bm.
  - split; [eauto|]. intros H. inversion H.
  - cbn [forEachM]. destruct (decide (resolves bm e)) as [He|He].
    + destruct (proj1 (aggregate_dom bm e) He) as (bm1 & H1 & Hd).
      rewrite H1. cbn [mbind result_bind].
      assert (Hsame : forall x, resolves bm1 x <-> resolves bm x)
        by (intros x; unfold resolves; now rewrite Hd).
      destruct (IH bm1) as [Hok Herr]. split.
      * intros H. inversion H; subst.
        destruct Hok as (bm' & H2 & Hd2).
        { eapply Forall_impl; [eassumption|]. intros x. apply Hsame. }
        exists bm'. split; [exact H2|congruence].
      * intros H. inversion H; subst; [contradiction|]. apply Herr.
        eapply Exists_impl; [eassumption|]. intros x Hx Hr. apply Hx. now apply Hsame.
    + rewrite (proj2 (aggregate_dom bm e) He). split; [|reflexivity].
      intros H. inversion H; subst. contradiction.
Qed.

Lemma init_map_dom (members : list Member) :
  dom (init_map members) = list_to_set (map id members).
Proof.
  unfold init_map.
  assert (H : forall (bm : gmap string Totals),
             dom (foldl (fun bm member => <[id member := mkTotals (Fin 0) (Fin 0)]> bm)
                    bm members)
             = dom bm ∪ list_to_set (map id members)).
  { induction members as [|m members IH]; intros bm; cbn [foldl map list_to_set].
    - set_solver.
    - rewrite IH, dom_insert_L. set_solver. }
  rewrite H, dom_empty_L. set_solver.
Qed.

End Ledger_errors.

(** An expense whose payer id and participant ids all are ids of members. *)
Definition refers_to_members (members : list Member) (expense : Expense) : Prop :=
  paidBy expense ∈ map id members
  /\ Forall (fun k => k ∈ map id members) (splitBetween expense).

#[global] Instance refers_to_members_dec members expense :
  Decision (refers_to_members members expense).
Proof. unfold refers_to_members. apply _. Defined.

Lemma resolves_init_map members expense :
  resolves (init_map members) expense <-> refers_to_members members expense.
Proof.
  unfold resolves, refers_to_members. rewrite init_map_dom.
  rewrite elem_of_list_to_set. apply and_iff_compat_l.
  rewrite !Forall_forall. now setoid_rewrite elem_of_list_to_set.
Qed.




(** ** The ledger: conservation *)

Section Conservation.

Implicit Types (bm : gmap string Totals) (key : string) (ids : list string).



















(** An expense the ledger can aggregate exactly: its ids are members', its
    participant list is not empty and repeats no id, and its amount is a
    finite number. *)
Definition sound_expense (members : list Member) (expense : Expense) : Prop :=
  refers_to_members members expense
  /\ splitBetween expense <> []
  /\ NoDup (splitBetween expense)
  /\ JS.is_finite (toCents (amount expense)) = true.

#[global] Instance sound_expense_dec members expense :
  Decision (sound_expense members expense).
Proof. unfold sound_expense. apply _. Defined.



Lemma init_map_lookup (members : list Member) (k : string) :
  k ∈ map id members -> init_map members !! k = Some (mkTotals (Fin 0) (Fin 0)).
Proof.
  unfold init_map.
  assert (H : forall (bm : gmap string Totals),
             k ∈ map id members \/ bm !! k = Some (mkTotals (Fin 0) (Fin 0)) ->
             foldl (fun bm member => <[id member := mkTotals (Fin 0) (Fin 0)]> bm)
               bm members !! k = Some (mkTotals (Fin 0) (Fin 0))).
  { induction members as [|m members IH]; intros bm [Hin|Hbm]; cbn [foldl map] in *.
    - inversion Hin.
    - exact Hbm.
    - apply IH. apply elem_of_cons in Hin as [->|Hin]; [right|left; exact Hin].
      apply lookup_insert_eq.
    - apply IH. right. destruct (decide (id m = k)) as [->|Hne].
      + apply lookup_insert_eq.
      + now rewrite lookup_insert_ne. }
  intros Hin. apply H. now left.
Qed.




End Conservation.


Lemma conservation_repeated_participant :
  let members := [mkMember "a" "Ann"; mkMember "b" "Bob"] in
  let expenses := [mkExpense "1.00" "a" ["b"; "b"]] in
  exists balances,
    calculateBalances members expenses = Ok balances
    /\ sum_cents (map (fun b => toCents (totalPaid b)) balances) = Fin 100
    /\ sum_cents (map (fun b => toCents (totalOwed b)) balances) = Fin 50.
Proof. cbn zeta. eexists. split; [vm_compute; reflexivity|]. repeat split. Qed.

Lemma conservation_infinite_amount :
  let members := [mkMember "a" "Ann"; mkMember "b" "Bob"] in
  let expenses := [mkExpense "Infinity" "a" ["a"; "b"]] in
  exists balances,
    calculateBalances members expenses = Ok balances
    /\ sum_cents (map (fun b => toCents (netBalance b)) balances) = NInf.
Proof. cbn zeta. eexists. split; [vm_compute; reflexivity|]. reflexivity. Qed.



(** ** The settlement engine: the lists of creditors and debtors *)

Section Settlement_lists.

(** A strictly positive magnitude: a positive integer or +Infinity. *)
Definition positive (a : num) : Prop := JS.gtb a (Fin 0) = true.

Lemma positive_cases (a : num) :
  positive a <-> (exists x, a = Fin x /\ 0 < x) \/ a = PInf.
Proof.
  unfold positive. destruct a as [x| | |]; cbn; split; intros H;
    try discriminate; try (now right); try reflexivity.
  - left. exists x. split; [reflexivity|now apply Z.ltb_lt].
  - destruct H as [(y & E & Hy)|E]; [|discriminate].
    inversion E; subst. now apply Z.ltb_lt.
  - destruct H as [(y & E & _)|E]; discriminate.
  - destruct H as [(y & E & _)|E]; discriminate.
Qed.

Lemma sort_insert_perm {A : Type} (cmp : A -> A -> num) x l :
  sort_insert cmp x l ≡ₚ x :: l.
Proof.
  induction l as [|y l IH]; [reflexivity|].
  cbn [sort_insert]. destruct (JS.gtb (cmp x y) (Fin 0)); [|reflexivity].
  rewrite IH. apply Permutation_swap.
Qed.

Lemma sort_perm {A : Type} (cmp : A -> A -> num) l : sort cmp l ≡ₚ l.
Proof.
  induction l as [|x l IH]; [reflexivity|].
  cbn [sort foldr]. fold (sort cmp l). now rewrite sort_insert_perm, IH.
Qed.

(** The entry of [creditors] made from a balance. *)
Definition creditor_of (b : Balance) : Party :=
  mkParty (memberId b) (name b) (toCents (netBalance b)).

(** The entry of [debtors] made from a balance. *)
Definition debtor_of (b : Balance) : Party :=
  mkParty (memberId b) (name b) (JS.abs (toCents (netBalance b))).

Definition is_creditor (b : Balance) : Prop :=
  JS.gtb (compare (netBalance b) "0.00") (Fin 0) = true.

Definition is_debtor (b : Balance) : Prop :=
  JS.ltb (compare (netBalance b) "0.00") (Fin 0) = true.

Lemma creditors_of_perm balances :
  creditors_of balances ≡ₚ map creditor_of (filter is_creditor balances).
Proof. apply sort_perm. Qed.

Lemma debtors_of_perm balances :
  debtors_of balances ≡ₚ map debtor_of (filter is_debtor balances).
Proof. apply sort_perm. Qed.

Lemma compare_zero (a : string) : compare a "0.00" = toCents a.
Proof.
  unfold compare. change (toCents "0.00") with (Fin 0).
  destruct (toCents a); cbn; try reflexivity. f_equal. lia.
Qed.

Lemma is_creditor_cases b :
  is_creditor b <-> positive (toCents (netBalance b)).
Proof. unfold is_creditor, positive. now rewrite compare_zero. Qed.

Lemma is_debtor_cases b :
  is_debtor b <->
  (exists x, toCents (netBalance b) = Fin x /\ x < 0) \/ toCents (netBalance b) = NInf.
Proof.
  unfold is_debtor. rewrite compare_zero.
  destruct (toCents (netBalance b)) as [x| | |]; cbn; split; intros H;
    try discriminate; try (now right); try reflexivity.
  - left. exists x. split; [reflexivity|now apply Z.ltb_lt].
  - destruct H as [(y & E & Hy)|E]; [|discriminate].
    inversion E; subst. now apply Z.ltb_lt.
  - destruct H as [(y & E & _)|E]; discriminate.
  - destruct H as [(y & E & _)|E]; discriminate.
Qed.

Lemma Forall_map_filter {A B : Type} (P : A -> Prop) `{!forall x, Decision (P x)}
    (f : A -> B) (Q : B -> Prop) (l : list A) :
  (forall x, P x -> Q (f x)) -> Forall Q (map f (filter P l)).
Proof.
  intros Himp. induction l as [|x l IH]; [constructor|].
  rewrite filter_cons. destruct (decide (P x)); [|exact IH].
  cbn [map]. constructor; auto.
Qed.

(** Every entry of [creditors] and of [debtors] starts with a strictly
    positive magnitude. *)
Lemma creditors_positive balances :
  Forall (fun p => positive (amountCents p)) (creditors_of balances).
Proof.
  rewrite creditors_of_perm. apply Forall_map_filter.
  intros b Hb. now apply is_creditor_cases.
Qed.

Lemma debtors_positive balances :
  Forall (fun p => positive (amountCents p)) (debtors_of balances).
Proof.
  rewrite debtors_of_perm. apply Forall_map_filter.
  intros b Hb. apply is_debtor_cases in Hb. cbn [debtor_of amountCents].
  apply positive_cases.
  destruct Hb as [(x & E & Hx)|E]; rewrite E; [left|now right].
  exists (Z.abs x). split; [reflexivity|lia].
Qed.

End Settlement_lists.

(** ** The settlement engine: termination *)

Section Termination.




Lemma iteration_None st :
  iteration st = None <->
  (length (creditors st) <= i st)%nat \/ (length (debtors st) <= j st)%nat.
Proof.
  unfold iteration.
  destruct (creditors st !! i st) as [c|] eqn:Hc;
  destruct (debtors st !! j st) as [d|] eqn:Hd.
  - apply lookup_lt_Some in Hc, Hd. split; [discriminate|lia].
  - apply lookup_ge_None in Hd. split; auto.
  - apply lookup_ge_None in Hc. split; auto.
  - apply lookup_ge_None in Hc. split; auto.
Qed.












End Termination.






(** ** The settlement engine: settlements neutralize the balances *)

Section Neutralization.

Lemma while_invariant (I : Loop -> Prop) :
  (forall st c d, I st ->
     creditors st !! i st = Some c -> debtors st !! j st = Some d ->
     I (settle st c d)) ->
  forall fuel st final n,
    I st -> while fuel st = Some (final, n) -> I final /\ iteration final = None.
Proof.
  intros Hstep fuel. induction fuel as [|fuel IH]; intros st final n Hst Hw;
    cbn [while] in Hw; destruct (iteration st) as [st'|] eqn:Hit;
    try discriminate; try (inversion Hw; subst; now split).
  destruct (while fuel st') as [[final' n']|] eqn:Hw'; [|discriminate].
  inversion Hw; subst. apply (IH st' final n'); [|exact Hw'].
  unfold iteration in Hit.
  destruct (creditors st !! i st) as [c|] eqn:Hc; [|discriminate].
  destruct (debtors st !! j st) as [d|] eqn:Hd; [|discriminate].
  inversion Hit; subst. now apply Hstep.
Qed.























Section Finite_balances.

Variable balances : list Balance.
Hypothesis Hfinite :
  Forall (fun b => JS.is_finite (toCents (netBalance b)) = true) balances.








End Finite_balances.







End Neutralization.



Definition ledger_sample : list Balance :=
  [mkBalance "a" "Ann" "9.00" "3.00" "6.00"; mkBalance "b" "Bob" "0.00" "5.00" "-5.00";
   mkBalance "c" "Cy" "0.00" "4.50" "-4.50"; mkBalance "d" "Di" "6.50" "3.00" "3.50";
   mkBalance "e" "Ed" "1.00" "1.00" "0.00"].



(** ** The store: what a call writes *)

Module Frame.

Import Store.

(** What holds of the outcome of [m] started in [h], if there is one. *)
Definition wp {A : Type} (m : M A) (Q : store -> result A -> Prop) (h : store) : Prop :=
  match m h with
  | Some (h', r) => Q h' r
  | None => True
  end.

(** The objects below address [N] are in [h'] what they are in [h]. *)
Definition ext (N : nat) (h h' : store) : Prop :=
  (N <= length h)%nat /\ (length h <= length h')%nat
  /\ forall a, (a < N)%nat -> h' !! a = h !! a.


Lemma ext_trans N h1 h2 h3 : ext N h1 h2 -> ext N h2 h3 -> ext N h1 h3.
Proof.
  intros (H1 & H2 & H3) (H4 & H5 & H6). repeat split; [lia..|].
  intros a Ha. now rewrite H6, H3.
Qed.




Lemma wp_ret {A : Type} (a : A) (Q : store -> result A -> Prop) h :
  Q h (Ok a) -> wp (mret a) Q h.
Proof. auto. Qed.

Lemma wp_bind {A B : Type} (m : M A) (k : A -> M B) (Q : store -> result B -> Prop) h :
  wp m (fun h1 r1 => match r1 with
                     | Ok x => wp (k x) Q h1
                     | Err e => Q h1 (Err e)
                     end) h ->
  wp (m ≫= k) Q h.
Proof.
  unfold wp, mbind, M_bind. destruct (m h) as [[h1 [x|e]]|]; auto.
Qed.

Lemma wp_stuck {A : Type} (Q : store -> result A -> Prop) h : wp stuck Q h.
Proof. exact I. Qed.

Lemma wp_unreached {A : Type} (Q : store -> result A -> Prop) h :
  wp stuck Q h.
Proof. exact I. Qed.



Lemma wp_load (a : addr) (Q : store -> result object -> Prop) h :
  (forall o, h !! a = Some o -> Q h (Ok o)) -> wp (load a) Q h.
Proof. unfold wp, load. destruct (h !! a); auto. Qed.




Lemma wp_load_party (a : addr) (Q : store -> result Party -> Prop) h :
  (forall p, h !! a = Some (OParty p) -> Q h (Ok p)) -> wp (load_party a) Q h.
Proof.
  intros H. apply wp_bind, wp_load. intros o Ho.
  destruct o; try apply wp_stuck. apply wp_ret. auto.
Qed.

(** A computation that reads the store and leaves it as it is. *)
Definition reads {A : Type} (m : M A) : Prop :=
  forall h, wp m (fun h' _ => h' = h) h.



Lemma reads_load_party a : reads (load_party a).
Proof. intros h. apply wp_load_party. auto. Qed.


















Section Loop_frame.

Variables (N : nat) (creditors debtors settlements : addr) (cs ds : list addr).

Hypothesis settlements_local : (N <= settlements)%nat.
Hypothesis settlements_creditors : settlements <> creditors.
Hypothesis settlements_debtors : settlements <> debtors.
Hypothesis creditors_local : Forall (fun a => N <= a)%nat cs.
Hypothesis debtors_local : Forall (fun a => N <= a)%nat ds.

(** The two arrays of the loop are where the loop expects them. *)
Definition arrays_at (h : store) : Prop :=
  h !! creditors = Some (OArray cs) /\ h !! debtors = Some (OArray ds).

Definition framed (h : store) (h' : store) : Prop := ext N h h' /\ arrays_at h'.

Lemma framed_trans h1 h2 h3 : ext N h1 h2 -> framed h2 h3 -> framed h1 h3.
Proof. intros H [H' Ha]. split; [eapply ext_trans; eauto|exact Ha]. Qed.




End Loop_frame.






Section Ledger_frame.

Variables (N : nat) (h : store) (balances balanceMap : addr) (items : list addr).

Hypothesis items_local : Forall (fun a => N <= a)%nat items.
Hypothesis balanceMap_local : (N <= balanceMap)%nat.









End Ledger_frame.




End Frame.


(** ** The store: what a call returns *)

Module Refine.

(** The functions on values, under names that [Store] does not reuse. *)
Abbreviation divideEqually_v := divideEqually (only parsing).
Abbreviation calculateExpenseShares_v := calculateExpenseShares (only parsing).
Abbreviation add_paid_v := add_paid (only parsing).
Abbreviation add_owed_v := add_owed (only parsing).
Abbreviation aggregate_v := aggregate (only parsing).
Abbreviation finish_v := finish (only parsing).
Abbreviation calculateBalances_v := calculateBalances (only parsing).

Import Store.






























Section Loop_sim.

Variables (creditors_at debtors_at settlements_at : addr) (cs ds : list addr).

Hypothesis parties_distinct : NoDup (cs ++ ds).
Hypothesis settlements_creditors : settlements_at <> creditors_at.
Hypothesis settlements_debtors : settlements_at <> debtors_at.















End Loop_sim.



(** *** The ledger *)










































End Refine.

(** ** Determinism, and inputs left as they were *)














(** * Further properties of the code *)

(** ** [Decimal]: what [toCents] returns *)

Section Parsing.

Local Open Scope string_scope.

Lemma scanDecimal_value (s : string) (v : fval) (r : string) :
  Str.scanDecimal s = Some (v, r) -> v <> FNaN.
Proof.
  unfold Str.scanDecimal. destruct (Str.scanSign s) as [sg r0].
  destruct (String.prefix "Infinity" r0); [intros [= <- _]; discriminate|].
  destruct (Str.scanDigits r0) as [u r1].
  destruct (match r1 with
            | String "."%char r' =>
                let (f, r'') := Str.scanDigits r' in
                if Str.is_nil u && Str.is_nil f then (Nil, r1) else (f, r'')
            | _ => (Nil, r1)
            end) as [f r2].
  destruct (Str.is_nil u && Str.is_nil f); [discriminate|].
  destruct (Str.scanExponent r2) as [e r3]. intros [= <- _]. discriminate.
Qed.

(** A string that starts with a digit has a decimal literal as a prefix. *)
Lemma scanDecimal_digit (c : ascii) (d : uint -> uint) (s : string) :
  Str.digit_of_ascii c = Some d -> Str.scanDecimal (String c s) <> None.
Proof.
  intros Hc. destruct (digit_not_sign c d Hc) as (Hm & Hp & HI).
  unfold Str.scanDecimal, Str.scanSign.
  destruct (Ascii.eqb_spec c "-"); [contradiction|].
  destruct (Ascii.eqb_spec c "+"); [contradiction|].
  assert (Hpre : String.prefix "Infinity" (String c s) = false).
  { cbn [String.prefix]. destruct (ascii_dec "I" c); [congruence|reflexivity]. }
  rewrite Hpre. cbn [Str.scanDigits]. rewrite Hc.
  destruct (Str.scanDigits s) as [u r1].
  destruct (match r1 with
            | String "."%char r' =>
                let (f, r'') := Str.scanDigits r' in
                if Str.is_nil (d u) && Str.is_nil f then (Nil, r1) else (f, r'')
            | _ => (Nil, r1)
            end) as [f r2].
  assert (Hnil : Str.is_nil (d u) = false).
  { unfold Str.digit_of_ascii in Hc.
    repeat match type of Hc with
           | (if ?b then _ else _) = _ => destruct b
           | match ?x with _ => _ end = _ => destruct x
           end; try discriminate; now inversion Hc. }
  rewrite Hnil. cbn [andb]. now destruct (Str.scanExponent r2).
Qed.

Lemma isNonDecimal_digit (s : string) :
  Str.isNonDecimal s = true -> exists r, s = String "0" r.
Proof.
  destruct s as [|c s]; [discriminate|]. cbn [Str.isNonDecimal].
  destruct (ascii_dec c "0") as [->|Hne]; [eauto|].
  destruct c as [[] [] [] [] [] [] [] []]; try discriminate; try congruence.
Qed.

(** [trim] leaves nothing for [parseFloat] to skip. *)
Lemma rtrim_head (c : ascii) (s : string) :
  Str.is_ws c = false -> exists r, Str.rtrim (String c s) = String c r.
Proof.
  intros Hc. cbn [Str.rtrim]. destruct (Str.rtrim s); [|eauto].
  rewrite Hc. eauto.
Qed.

Lemma ltrim_head (s : string) :
  Str.ltrim s = "" \/ exists c r, Str.ltrim s = String c r /\ Str.is_ws c = false.
Proof.
  induction s as [|c s IH]; [now left|]. cbn [Str.ltrim].
  destruct (Str.is_ws c) eqn:Hc; [exact IH|]. right. eauto.
Qed.

Lemma ltrim_trim (s : string) : Str.ltrim (Str.trim s) = Str.trim s.
Proof.
  unfold Str.trim. destruct (ltrim_head s) as [->|(c & r & -> & Hc)]; [reflexivity|].
  destruct (rtrim_head c r Hc) as [r' ->]. cbn [Str.ltrim]. now rewrite Hc.
Qed.

Lemma parseFloat_numeric (s : string) :
  Str.isNaN (Str.trim s) = false -> Str.parseFloat (Str.trim s) <> FNaN.
Proof.
  unfold Str.isNaN, Str.parseFloat. rewrite ltrim_trim.
  destruct (Str.scanDecimal (Str.trim s)) as [[v r]|] eqn:Hscan.
  - intros _. eapply scanDecimal_value; eauto.
  - intros H. apply negb_false_iff, isNonDecimal_digit in H as [r Hr].
    rewrite Hr in Hscan. now apply (scanDecimal_digit "0" D0) in Hscan.
Qed.

Lemma round_times100 (v : fval) : v <> FNaN -> JS.round (JS.times100 v) <> NaN.
Proof. destruct v as [sg m e|[]|]; cbn; congruence. Qed.

End Parsing.

(** What [toCents (fromCents c)] is: [c], except that the text "NaN" is not
    numeric. *)
Definition reread (c : num) : num :=
  match c with
  | NaN => Fin 0
  | _ => c
  end.

Lemma toCents_fromCents_reread (c : num) : toCents (fromCents c) = reread c.
Proof.
  destruct c as [z| | |]; cbn [reread].
  - apply toCents_fromCents_Fin.
  - apply toCents_fromCents_inf.
  - apply toCents_fromCents_inf.
  - apply toCents_fromCents_inf.
Qed.

Lemma toCents_not_NaN (s : string) : toCents s <> NaN.
Proof.
  unfold toCents.
  destruct ((Str.trim s =? "")%string || Str.isNaN (Str.trim s)) eqn:H; [discriminate|].
  apply orb_false_iff in H as [_ H].
  now apply round_times100, parseFloat_numeric.
Qed.

(** X1.  [Decimal.toCents] never returns NaN: for every string the result
    is an integer number of cents or one of the two infinities. *)
Theorem toCents_is_a_number (decimalStr : string) :
  toCents decimalStr <> NaN
  /\ (JS.is_finite (toCents decimalStr) = true
      \/ toCents decimalStr = PInf \/ toCents decimalStr = NInf).
Proof.
  pose proof (toCents_not_NaN decimalStr) as H.
  split; [exact H|]. destruct (toCents decimalStr); auto; contradiction.
Qed.


(** ** [Decimal]: sums, differences and comparisons *)






(** X4.  [Decimal.compare] orders amounts by their cents: the result is
    positive exactly when [a] is worth more than [b], negative exactly when
    it is worth less, and [0] exactly when both are the same finite number
    of cents (two amounts of the same infinite value compare as NaN); and
    exchanging the arguments negates the result. *)
Theorem compare_orders (a b : string) :
  JS.gtb (compare a b) (Fin 0) = JS.gtb (toCents a) (toCents b)
  /\ JS.ltb (compare a b) (Fin 0) = JS.ltb (toCents a) (toCents b)
  /\ (JS.is_zero (compare a b) = true
      <-> exists z, toCents a = Fin z /\ toCents b = Fin z)
  /\ compare b a = JS.neg (compare a b).
Proof.
  unfold compare.
  pose proof (toCents_not_NaN a) as Ha. pose proof (toCents_not_NaN b) as Hb.
  destruct (toCents a) as [x| | |], (toCents b) as [y| | |]; try contradiction;
    cbn; (split; [|split; [|split]]); try reflexivity;
    try (split; [discriminate|intros (z & E1 & E2); discriminate]).
  - apply eq_iff_eq_true. rewrite !Z.ltb_lt. lia.
  - apply eq_iff_eq_true. rewrite !Z.ltb_lt. lia.
  - rewrite Z.eqb_eq. split.
    + intros H. exists x. split; f_equal; lia.
    + intros (z & [= ->] & [= ->]). lia.
  - f_equal. lia.
Qed.

Lemma divideEqually_not_finite (amount : string) (parts : Z) :
  0 < parts -> JS.is_finite (toCents amount) = false ->
  divideEqually amount parts
  = replicate (Z.to_nat parts) (fromCents (toCents amount)).
Proof.
  intros Hparts Hinf. unfold divideEqually.
  destruct (Z.leb_spec parts 0) as [Hle|_]; [lia|].
  pose proof (toCents_not_NaN amount) as Hnan.
  assert (Hpos : (0 <? parts) = true) by (apply Z.ltb_lt; lia).
  assert (Hne : (parts =? 0) = false) by (apply Z.eqb_neq; lia).
  destruct (toCents amount) as [z| | |]; try discriminate; try contradiction;
    cbn [JS.floor_div JS.mul JS.sub JS.add JS.neg]; rewrite Hne, Hpos;
    cbn [JS.add JS.neg iterations_below incr_from]; now rewrite map_replicate.
Qed.


(** X5.  [Decimal.divideEqually] of an infinite amount: the remainder is
    NaN, no share is incremented, and every share is the text of that
    infinity. *)
Theorem divideEqually_infinite (amount : string) (parts : Z) :
  0 < parts -> JS.is_finite (toCents amount) = false ->
  divideEqually amount parts
  = replicate (Z.to_nat parts) (fromCents (toCents amount))
  /\ (fromCents (toCents amount) = "Infinity"%string
      \/ fromCents (toCents amount) = "-Infinity"%string).
Proof.
  intros Hparts Hinf. split; [now apply divideEqually_not_finite|].
  pose proof (toCents_not_NaN amount) as Hnan.
  destruct (toCents amount); try discriminate; try contradiction;
    [left|right]; reflexivity.
Qed.

Lemma divideEqually_infinite_witness :
  divideEqually "Infinity" 3
  = replicate (Z.to_nat 3) (fromCents (toCents "Infinity"))
  /\ (fromCents (toCents "Infinity") = "Infinity"%string
      \/ fromCents (toCents "Infinity") = "-Infinity"%string).
Proof. apply (divideEqually_infinite "Infinity" 3); [lia|reflexivity]. Defined.

(** ** [Calculator.calculateExpenseShares]: the shares of one expense *)

Section Shares.

Implicit Types (shares : list (string * string)) (ids amounts : list string).





End Shares.






(** ** [Calculator.calculateBalances]: postings *)

(** The updates of [balanceMap] an expense makes, in the order the code
    makes them: one to [paidCents] of the payer, then one to [owedCents] for
    every entry of the shares. *)
Inductive posting : Type :=
| Paid (key : string) (cents : num)
| Owed (key : string) (cents : num).

Definition post (balanceMap : gmap string Totals) (p : posting)
  : result (gmap string Totals) :=
  match p with
  | Paid key cents => add_paid key cents balanceMap
  | Owed key cents => add_owed key cents balanceMap
  end.

Definition postings (expense : Expense) : list posting :=
  Paid (paidBy expense) (toCents (amount expense))
  :: map (fun share : string * string => Owed share.1 (toCents share.2))
       (calculateExpenseShares expense).

Definition posting_key (p : posting) : string :=
  match p with Paid key _ | Owed key _ => key end.


Section Postings.

Implicit Types (bm : gmap string Totals) (p : posting).

Lemma forEachM_app {A S : Type} (body : S -> A -> result S) (l1 l2 : list A) (st : S) :
  forEachM body (l1 ++ l2) st = (st' ← forEachM body l1 st; forEachM body l2 st').
Proof.
  revert st. induction l1 as [|x l1 IH]; intros st; [reflexivity|].
  cbn [app forEachM]. destruct (body st x) as [st'|e]; [apply IH|reflexivity].
Qed.

Lemma forEachM_map {A B S : Type} (body : S -> B -> result S) (f : A -> B)
    (l : list A) (st : S) :
  forEachM body (map f l) st = forEachM (fun s x => body s (f x)) l st.
Proof.
  revert st. induction l as [|x l IH]; intros st; [reflexivity|].
  cbn [map forEachM]. destruct (body st (f x)); [apply IH|reflexivity].
Qed.

Lemma forEachM_ext {A S : Type} (f g : S -> A -> result S) (l : list A) (st : S) :
  (forall s x, f s x = g s x) -> forEachM f l st = forEachM g l st.
Proof.
  intros H. revert st. induction l as [|x l IH]; intros st; [reflexivity|].
  cbn [forEachM]. rewrite H. destruct (g st x); [apply IH|reflexivity].
Qed.

Lemma aggregate_postings bm expense :
  aggregate bm expense = forEachM post (postings expense) bm.
Proof.
  unfold aggregate, postings. cbn [forEachM post].
  destruct (add_paid _ _ bm) as [bm'|e]; [|reflexivity]. cbn [mbind result_bind].
  rewrite forEachM_map. apply forEachM_ext. now intros s [k v].
Qed.

Lemma aggregate_all_postings (expenses : list Expense) bm :
  forEachM aggregate expenses bm
  = forEachM post (concat (map postings expenses)) bm.
Proof.
  revert bm. induction expenses as [|e expenses IH]; intros bm; [reflexivity|].
  cbn [map concat forEachM]. rewrite forEachM_app, aggregate_postings.
  destruct (forEachM post (postings e) bm); [apply IH|reflexivity].
Qed.

(** One posting: it throws on a missing key, and otherwise changes the
    entry of its key only. *)
Definition bump (p : posting) (data : Totals) : Totals :=
  match p with
  | Paid _ cents => mkTotals (JS.add (paidCents data) cents) (owedCents data)
  | Owed _ cents => mkTotals (paidCents data) (JS.add (owedCents data) cents)
  end.

Lemma post_eq bm p :
  post bm p = match bm !! posting_key p with
              | Some data => Ok (<[posting_key p := bump p data]> bm)
              | None => Err TypeError
              end.
Proof. destruct p; reflexivity. Qed.






End Postings.



(** ** [Calculator.calculateBalances]: what it returns *)

Section Balances.

Implicit Types (bm : gmap string Totals) (p : posting).

Lemma mapM_result_Forall2 {A B : Type} (f : A -> result B) (l : list A) (ys : list B) :
  mapM_result f l = Ok ys <-> Forall2 (fun x y => f x = Ok y) l ys.
Proof.
  revert ys. induction l as [|x l IH]; intros ys; cbn [mapM_result].
  - split; [intros [= <-]; constructor|intros H; now inversion H].
  - destruct (f x) as [y|e] eqn:Hx; cbn [mbind result_bind].
    + destruct (mapM_result f l) as [ys'|e] eqn:Hl; cbn [mbind result_bind].
      * split.
        -- intros [= <-]. constructor; [exact Hx|]. now apply IH.
        -- intros H. inversion H as [|? y0 ? ys0 Hy Hrest]; subst.
           apply IH in Hrest. congruence.
      * split; [discriminate|]. intros H. inversion H as [|? y0 ? ys0 Hy Hrest]; subst.
        apply IH in Hrest. discriminate.
    + split; [discriminate|]. intros H. inversion H; subst. congruence.
Qed.

Lemma finish_Ok bm (member : Member) (b : Balance) :
  finish bm member = Ok b ->
  exists data, bm !! id member = Some data
    /\ b = mkBalance (id member) (memberName member)
             (fromCents (paidCents data)) (fromCents (owedCents data))
             (fromCents (JS.sub (paidCents data) (owedCents data))).
Proof.
  unfold finish. destruct (bm !! id member) as [data|]; [|discriminate].
  intros [= <-]. eauto.
Qed.


Lemma finish_every bm (members : list Member) :
  (forall m, m ∈ members -> id m ∈ dom bm) ->
  exists balances, mapM_result (finish bm) members = Ok balances.
Proof.
  induction members as [|m ms IH]; intros Hdom; [now exists []|].
  destruct IH as [bs Hbs]; [intros m' Hm'; apply Hdom; now right|].
  assert (Hm : id m ∈ dom bm) by (apply Hdom; now left).
  apply elem_of_dom in Hm as [data Hdata].
  assert (Hfin : exists b, finish bm m = Ok b).
  { unfold finish. rewrite Hdata. eauto. }
  destruct Hfin as [b Hb]. cbn [mapM_result]. rewrite Hb, Hbs. cbn. eauto.
Qed.

Lemma post_other bm bm' p (k : string) :
  post bm p = Ok bm' -> posting_key p <> k -> bm' !! k = bm !! k.
Proof.
  rewrite post_eq. destruct (bm !! posting_key p); [|discriminate].
  intros [= <-] Hne. now apply lookup_insert_ne.
Qed.

Lemma post_all_other (l : list posting) bm bm' (k : string) :
  forEachM post l bm = Ok bm' -> Forall (fun p => posting_key p <> k) l ->
  bm' !! k = bm !! k.
Proof.
  revert bm. induction l as [|p l IH]; intros bm; cbn [forEachM].
  - now intros [= <-].
  - destruct (post bm p) as [bm1|e] eqn:Hp; [|discriminate].
    cbn [mbind result_bind]. intros Hl Hall. apply Forall_cons in Hall as [Hk Hall].
    rewrite (IH bm1 Hl Hall). eapply post_other; eauto.
Qed.

Lemma postings_keys (expense : Expense) (p : posting) :
  p ∈ postings expense ->
  posting_key p = paidBy expense \/ posting_key p ∈ splitBetween expense.
Proof.
  unfold postings. intros [->|Hin]%elem_of_cons; [now left|]. right.
  apply list_elem_of_fmap in Hin as ([k v] & -> & Hin). cbn.
  apply calculateExpenseShares_keys. apply list_elem_of_fmap. now exists (k, v).
Qed.








Lemma elem_of_all_postings (q : posting) (expenses : list Expense) :
  q ∈ concat (map postings expenses) -> exists e, e ∈ expenses /\ q ∈ postings e.
Proof.
  induction expenses as [|e es IH]; cbn [map concat]; [intros H; inversion H|].
  rewrite elem_of_app. intros [H|H].
  - exists e. split; [now left|exact H].
  - destruct (IH H) as (e' & He' & Hq). exists e'. split; [now right|exact Hq].
Qed.

Lemma refers_returns (members : list Member) (expenses : list Expense) :
  Forall (refers_to_members members) expenses ->
  exists balances, calculateBalances members expenses = Ok balances.
Proof.
  intros Hall.
  destruct (proj1 (aggregate_all_dom expenses (init_map members))) as (bm & Hbm & Hdom).
  { eapply Forall_impl; [exact Hall|]. intros e. apply resolves_init_map. }
  unfold calculateBalances. rewrite Hbm. cbn [mbind result_bind].
  apply finish_every. intros m Hm. rewrite Hdom, init_map_dom.
  apply elem_of_list_to_set, list_elem_of_fmap. now exists m.
Qed.

End Balances.


(** X10.  A member who paid no expense and takes part in none has a balance
    of "0.00" paid, "0.00" owed and "0.00" net; in particular every balance
    is that when there are no expenses. *)
Theorem uninvolved_member_balance (members : list Member) (expenses : list Expense)
    (balances : list Balance) (p : nat) (member : Member) :
  calculateBalances members expenses = Ok balances ->
  members !! p = Some member ->
  Forall (fun e => paidBy e <> id member /\ id member ∉ splitBetween e) expenses ->
  balances !! p
  = Some (mkBalance (id member) (memberName member) "0.00" "0.00" "0.00").
Proof.
  unfold calculateBalances. intros Hok Hp Hall.
  destruct (forEachM aggregate expenses (init_map members)) as [bm|e] eqn:Hbm;
    [|discriminate].
  cbn [mbind result_bind] in Hok. rewrite aggregate_all_postings in Hbm.
  apply mapM_result_Forall2 in Hok.
  destruct (Forall2_lookup_l _ _ _ _ _ Hok Hp) as (b & Hb & Hfin).
  rewrite Hb. f_equal.
  apply finish_Ok in Hfin as (data & Hdata & ->).
  assert (Hzero : bm !! id member = Some (mkTotals (Fin 0) (Fin 0))).
  { rewrite (post_all_other _ _ _ (id member) Hbm).
    - apply init_map_lookup, list_elem_of_fmap. exists member. split; [reflexivity|].
      eapply list_elem_of_lookup_2; eauto.
    - apply Forall_forall. intros q Hq.
      apply elem_of_all_postings in Hq as (e & He & Hq).
      rewrite Forall_forall in Hall. destruct (Hall e He) as [Hpaid Hsplit].
      destruct (postings_keys e q Hq) as [E|E]; rewrite ?E; congruence. }
  rewrite Hdata in Hzero. injection Hzero as ->. reflexivity.
Qed.

Lemma uninvolved_member_balance_witness :
  exists balances,
    calculateBalances
      [mkMember "a" "Ann"; mkMember "b" "Bob"; mkMember "c" "Cy"]
      [mkExpense "100.00" "a" ["a"; "b"]; mkExpense "0.05" "b" ["b"; "a"]]
    = Ok balances
    /\ balances !! 2%nat = Some (mkBalance "c" "Cy" "0.00" "0.00" "0.00").
Proof.
  eexists. split; [vm_compute; reflexivity|].
  apply (uninvolved_member_balance
           [mkMember "a" "Ann"; mkMember "b" "Bob"; mkMember "c" "Cy"]
           [mkExpense "100.00" "a" ["a"; "b"]; mkExpense "0.05" "b" ["b"; "a"]]
           _ 2 (mkMember "c" "Cy")); [vm_compute; reflexivity|reflexivity|].
  apply (bool_decide_unpack _). vm_compute. exact I.
Defined.



(** ** [Calculator.calculateBalances]: what a row holds *)



Section Rows.

Implicit Types (bm : gmap string Totals) (p : posting).














End Rows.



(** ** [UI.renderSettlements]: the total, the balances and the settlements *)


Section Pipeline.





End Pipeline.



(** ** [UI.renderBalances] and [Calculator.calculateSettlements] *)

(** [status] of [UI.renderBalances] (lines 544-545): the class a balance is
    shown with. *)
Definition status (balance : Balance) : string :=
  let netCents := toCents (netBalance balance) in
  if JS.gtb netCents (Fin 0) then "positive"
  else if JS.ltb netCents (Fin 0) then "negative"
  else "neutral".

Section Directions.

Variable balances : list Balance.

(** The entry [p] of [creditors] or [debtors] was made from a balance of
    the given status. *)
Definition made_from (s : string) (p : Party) : Prop :=
  exists b, b ∈ balances /\ status b = s
            /\ memberId b = partyId p /\ name b = partyName p.

Definition directed (x : Settlement) : Prop :=
  (exists b, b ∈ balances /\ status b = "negative"
             /\ memberId b = fromId x /\ name b = from x)
  /\ (exists b, b ∈ balances /\ status b = "positive"
                /\ memberId b = toId x /\ name b = to x).

Definition directions (st : Loop) : Prop :=
  Forall (made_from "positive") (creditors st)
  /\ Forall (made_from "negative") (debtors st)
  /\ Forall directed (settlements st).

Lemma is_creditor_status (b : Balance) : is_creditor b -> status b = "positive".
Proof.
  unfold is_creditor, status. rewrite compare_zero. cbv zeta. now intros ->.
Qed.

Lemma is_debtor_status (b : Balance) : is_debtor b -> status b = "negative".
Proof.
  unfold is_debtor, status. rewrite compare_zero. cbv zeta. intros H. rewrite H.
  destruct (toCents (netBalance b)) as [z| | |]; try discriminate; cbn in *;
    [|reflexivity].
  apply Z.ltb_lt in H. destruct (Z.ltb_spec 0 z); [lia|reflexivity].
Qed.

Lemma status_cases (b : Balance) :
  (status b = "positive" <-> is_creditor b)
  /\ (status b = "negative" <-> is_debtor b).
Proof.
  split; (split; [|auto using is_creditor_status, is_debtor_status]);
    unfold is_creditor, is_debtor, status; rewrite compare_zero; cbv zeta;
    destruct (JS.gtb (toCents (netBalance b)) (Fin 0)) eqn:Hg;
    destruct (JS.ltb (toCents (netBalance b)) (Fin 0)) eqn:Hl;
    try discriminate; auto.
Qed.

Lemma start_directions : directions (start balances).
Proof.
  split; [|split; [|constructor]]; cbn [start creditors debtors].
  - rewrite creditors_of_perm. apply Forall_forall. intros p Hp.
    apply list_elem_of_fmap in Hp as (b & -> & Hb).
    apply list_elem_of_filter in Hb as [Hc Hb].
    exists b. split; [exact Hb|]. split; [now apply is_creditor_status|now split].
  - rewrite debtors_of_perm. apply Forall_forall. intros p Hp.
    apply list_elem_of_fmap in Hp as (b & -> & Hb).
    apply list_elem_of_filter in Hb as [Hd Hb].
    exists b. split; [exact Hb|]. split; [now apply is_debtor_status|now split].
Qed.

Lemma settle_directions (st : Loop) (c d : Party) :
  directions st ->
  creditors st !! i st = Some c -> debtors st !! j st = Some d ->
  directions (settle st c d).
Proof.
  intros (Hcs & Hds & Hsts) Hc Hd.
  assert (Hmc : made_from "positive" c).
  { rewrite Forall_forall in Hcs. apply Hcs. eapply list_elem_of_lookup_2; eauto. }
  assert (Hmd : made_from "negative" d).
  { rewrite Forall_forall in Hds. apply Hds. eapply list_elem_of_lookup_2; eauto. }
  unfold settle. cbv zeta. split; [|split]; cbn [creditors debtors settlements].
  - apply Forall_insert; [exact Hcs|]. exact Hmc.
  - apply Forall_insert; [exact Hds|]. exact Hmd.
  - destruct (JS.gtb _ _); [|exact Hsts].
    apply Forall_app. split; [exact Hsts|]. constructor; [|constructor].
    split; cbn [fromId from toId to]; [exact Hmd|exact Hmc].
Qed.

Lemma while_directions (fuel : nat) (final : Loop) (n : nat) :
  while fuel (start balances) = Some (final, n) -> Forall directed (settlements final).
Proof.
  intros Hw.
  destruct (while_invariant directions settle_directions fuel (start balances) final n
              start_directions Hw) as [(_ & _ & H) _].
  exact H.
Qed.

(** A balance has one status. *)
Lemma same_member (b b' : Balance) :
  NoDup (map memberId balances) -> b ∈ balances -> b' ∈ balances ->
  memberId b = memberId b' -> b = b'.
Proof.
  intros Hnd Hb Hb' E.
  apply list_elem_of_lookup in Hb as [p Hp]. apply list_elem_of_lookup in Hb' as [q Hq].
  assert (p = q).
  { eapply NoDup_lookup; [exact Hnd| |].
    - rewrite list_lookup_fmap, Hp. reflexivity.
    - rewrite list_lookup_fmap, Hq. cbn. now rewrite E. }
  subst q. congruence.
Qed.

End Directions.

(** X14.  Every settlement goes from a member whose balance is shown
    negative to a member whose balance is shown positive, under their ids
    and names; so, when the member ids are distinct, nobody pays
    themselves, a member shown positive never pays, a member shown
    negative never receives, and a member shown neutral takes part in no
    settlement. *)
Theorem settlements_follow_status (balances : list Balance) (fuel : nat)
    (sts : list Settlement) :
  calculateSettlements_fuel fuel balances = Some sts ->
  Forall (directed balances) sts
  /\ (NoDup (map memberId balances) ->
      forall x b, x ∈ sts -> b ∈ balances ->
        fromId x <> toId x
        /\ (memberId b = fromId x -> status b = "negative")
        /\ (memberId b = toId x -> status b = "positive")).
Proof.
  unfold calculateSettlements_fuel.
  destruct (while fuel (start balances)) as [[final n]|] eqn:Hw; [|discriminate].
  intros [= <-]. pose proof (while_directions balances fuel final n Hw) as Hdir.
  split; [exact Hdir|]. intros Hnd x b Hx Hb.
  rewrite Forall_forall in Hdir.
  destruct (Hdir x Hx) as [(bd & Hbd & Hsd & Hid & _) (bc & Hbc & Hsc & Hic & _)].
  split; [|split].
  - intros E. assert (bd = bc).
    { apply (same_member balances); auto. congruence. }
    subst bc. rewrite Hsd in Hsc. discriminate.
  - intros E. assert (b = bd) by (apply (same_member balances); auto; congruence).
    now subst.
  - intros E. assert (b = bc) by (apply (same_member balances); auto; congruence).
    now subst.
Qed.

Lemma settlements_follow_status_witness :
  exists sts,
    calculateSettlements_fuel 4 ledger_sample = Some sts
    /\ Forall (directed ledger_sample) sts
    /\ (NoDup (map memberId ledger_sample) ->
        forall x b, x ∈ sts -> b ∈ ledger_sample ->
          fromId x <> toId x
          /\ (memberId b = fromId x -> status b = "negative")
          /\ (memberId b = toId x -> status b = "positive")).
Proof.
  eexists. split; [vm_compute; reflexivity|].
  apply (settlements_follow_status ledger_sample 4). vm_compute. reflexivity.
Defined.

Lemma filter_none {A : Type} (P : A -> Prop) `{!forall x, Decision (P x)} (l : list A) :
  Forall (fun x => ~ P x) l -> filter P l = [].
Proof.
  induction 1 as [|x l Hx _ IH]; [reflexivity|].
  rewrite filter_cons. destruct (decide (P x)); [contradiction|exact IH].
Qed.

(** X15.  When no balance is shown positive, or none is shown negative (in
    particular when every net balance is zero, or there is no balance at
    all), [calculateSettlements] returns no settlement, without making an
    iteration. *)
Theorem nothing_to_settle (balances : list Balance) :
  Forall (fun b => status b <> "positive") balances
  \/ Forall (fun b => status b <> "negative") balances ->
  calculateSettlements balances = Some []
  /\ while 0 (start balances) = Some (start balances, O).
Proof.
  intros H.
  assert (Hend : iteration (start balances) = None).
  { apply iteration_None. cbn [start creditors debtors i j].
    destruct H as [H|H]; [left|right].
    - unfold creditors_of. rewrite (Permutation_length (sort_perm _ _)), length_map.
      rewrite (filter_none (fun b => JS.gtb (compare (netBalance b) "0.00") (Fin 0) = true));
        [cbn; lia|].
      eapply Forall_impl; [exact H|]. intros b Hb Hc. apply Hb.
      now apply is_creditor_status.
    - unfold debtors_of. rewrite (Permutation_length (sort_perm _ _)), length_map.
      rewrite (filter_none (fun b => JS.ltb (compare (netBalance b) "0.00") (Fin 0) = true));
        [cbn; lia|].
      eapply Forall_impl; [exact H|]. intros b Hb Hc. apply Hb.
      now apply is_debtor_status. }
  assert (Hw : forall fuel, while fuel (start balances) = Some (start balances, O)).
  { intros [|fuel]; cbn [while]; now rewrite Hend. }
  split; [|apply Hw].
  unfold calculateSettlements, calculateSettlements_fuel. now rewrite Hw.
Qed.

Lemma nothing_to_settle_witness :
  calculateSettlements
    [mkBalance "a" "Ann" "5.00" "5.00" "0.00"; mkBalance "b" "Bob" "0.00" "2.50" "-2.50"]
  = Some []
  /\ while 0 (start [mkBalance "a" "Ann" "5.00" "5.00" "0.00";
                     mkBalance "b" "Bob" "0.00" "2.50" "-2.50"])
     = Some (start [mkBalance "a" "Ann" "5.00" "5.00" "0.00";
                    mkBalance "b" "Bob" "0.00" "2.50" "-2.50"], O).
Proof.
  apply nothing_to_settle. left. repeat constructor; discriminate.
Defined.

Section End_to_end.





End End_to_end.



(** ** [Calculator.calculateSettlements]: the order of the parties *)

(** The entries of [creditors] or [debtors] that hold the amount [v]. *)
Definition of_amount (v : num) (p : Party) : Prop := amountCents p = v.

#[global] Instance of_amount_dec (v : num) (p : Party) : Decision (of_amount v p).
Proof. unfold of_amount. apply _. Defined.

Section Order.

(** [q] does not come before [p] in descending order of amount. *)
Definition not_above (p q : Party) : Prop :=
  JS.leb (amountCents q) (amountCents p) = true.

Fixpoint descending (l : list Party) : Prop :=
  match l with
  | [] => True
  | p :: r => Forall (not_above p) r /\ descending r
  end.

Definition is_number (p : Party) : Prop := amountCents p <> NaN.

Lemma by_amount_desc_after (x y : Party) :
  is_number x -> is_number y ->
  JS.gtb (by_amount_desc x y) (Fin 0) = true -> not_above y x.
Proof.
  unfold is_number, not_above, by_amount_desc.
  destruct (amountCents x) as [a| | |], (amountCents y) as [b| | |];
    try contradiction; cbn; try discriminate; try reflexivity.
  intros _ _ H. apply Z.ltb_lt in H. apply Z.leb_le. lia.
Qed.

Lemma by_amount_desc_before (x y : Party) :
  is_number x -> is_number y ->
  JS.gtb (by_amount_desc x y) (Fin 0) = false -> not_above x y.
Proof.
  unfold is_number, not_above, by_amount_desc.
  destruct (amountCents x) as [a| | |], (amountCents y) as [b| | |];
    try contradiction; cbn; try discriminate; try reflexivity.
  intros _ _ H. apply Z.ltb_ge in H. apply Z.leb_le. lia.
Qed.

Lemma not_above_trans (x y z : Party) :
  is_number y -> not_above x y -> not_above y z -> not_above x z.
Proof.
  unfold is_number, not_above.
  destruct (amountCents x) as [a| | |], (amountCents y) as [b| | |],
    (amountCents z) as [c| | |]; try contradiction; cbn; try discriminate;
    try reflexivity.
  rewrite !Z.leb_le. lia.
Qed.

Lemma sort_insert_descending (x : Party) (l : list Party) :
  is_number x -> Forall is_number l -> descending l ->
  descending (sort_insert by_amount_desc x l).
Proof.
  intros Hx. induction l as [|y l IH]; intros Hl Hd; cbn [sort_insert].
  - split; [constructor|exact I].
  - apply Forall_cons in Hl as [Hy Hl]. destruct Hd as [Hyl Hd].
    destruct (JS.gtb (by_amount_desc x y) (Fin 0)) eqn:Hcmp; cbn [descending].
    + split; [|now apply IH].
      rewrite (sort_insert_perm by_amount_desc x l). constructor; [|exact Hyl].
      now apply by_amount_desc_after.
    + pose proof (by_amount_desc_before x y Hx Hy Hcmp) as Hxy.
      split; [|now split]. constructor; [exact Hxy|].
      rewrite Forall_forall in Hyl |- *. intros z Hz.
      apply (not_above_trans x y z Hy Hxy). now apply Hyl.
Qed.

Lemma sort_descending (l : list Party) :
  Forall is_number l -> descending (sort by_amount_desc l).
Proof.
  unfold sort. induction l as [|x l IH]; intros Hl; [exact I|].
  apply Forall_cons in Hl as [Hx Hl]. cbn [foldr].
  apply sort_insert_descending; [exact Hx| |now apply IH].
  fold (sort by_amount_desc l). now rewrite sort_perm.
Qed.


Lemma gtb_irrefl_amount (x y : Party) :
  amountCents x = amountCents y -> JS.gtb (by_amount_desc x y) (Fin 0) = false.
Proof.
  unfold by_amount_desc. intros ->. destruct (amountCents y); cbn; try reflexivity.
  apply Z.ltb_ge. lia.
Qed.

Lemma sort_insert_stable (v : num) (x : Party) (l : list Party) :
  filter (of_amount v) (sort_insert by_amount_desc x l) = filter (of_amount v) (x :: l).
Proof.
  induction l as [|y l IH]; [reflexivity|]. cbn [sort_insert].
  destruct (JS.gtb (by_amount_desc x y) (Fin 0)) eqn:Hcmp; [|reflexivity].
  rewrite filter_cons, IH, !filter_cons.
  destruct (decide (of_amount v y)) as [Hy|Hy], (decide (of_amount v x)) as [Hx|Hx];
    try reflexivity.
  unfold of_amount in *. rewrite gtb_irrefl_amount in Hcmp; [discriminate|congruence].
Qed.

Lemma sort_stable (v : num) (l : list Party) :
  filter (of_amount v) (sort by_amount_desc l) = filter (of_amount v) l.
Proof.
  unfold sort. induction l as [|x l IH]; [reflexivity|]. cbn [foldr].
  rewrite sort_insert_stable, !filter_cons. now rewrite IH.
Qed.

Lemma creditors_numbers (balances : list Balance) :
  Forall is_number
    (map (fun b => mkParty (memberId b) (name b) (toCents (netBalance b)))
       (filter (fun b => JS.gtb (compare (netBalance b) "0.00") (Fin 0) = true) balances)).
Proof.
  apply Forall_forall. intros p Hp. apply list_elem_of_fmap in Hp as (b & -> & _).
  apply toCents_not_NaN.
Qed.

Lemma debtors_numbers (balances : list Balance) :
  Forall is_number
    (map (fun b => mkParty (memberId b) (name b) (JS.abs (toCents (netBalance b))))
       (filter (fun b => JS.ltb (compare (netBalance b) "0.00") (Fin 0) = true) balances)).
Proof.
  apply Forall_forall. intros p Hp. apply list_elem_of_fmap in Hp as (b & -> & _).
  unfold is_number. cbn. pose proof (toCents_not_NaN (netBalance b)).
  now destruct (toCents (netBalance b)).
Qed.

(** The settlements only grow. *)
Lemma while_extends (fuel : nat) (st final : Loop) (n : nat) :
  while fuel st = Some (final, n) ->
  exists emitted, settlements final = settlements st ++ emitted.
Proof.
  revert st n. induction fuel as [|fuel IH]; intros st n; cbn [while];
    destruct (iteration st) as [st'|] eqn:Hit; try discriminate;
    try (intros [= <- _]; exists []; now rewrite app_nil_r).
  destruct (while fuel st') as [[f k]|] eqn:Hw; [|discriminate].
  intros [= <- _]. destruct (IH _ _ Hw) as [emitted Hout].
  unfold iteration in Hit.
  destruct (creditors st !! i st) as [c|]; [|discriminate].
  destruct (debtors st !! j st) as [d|]; [|discriminate].
  injection Hit as <-. unfold settle in Hout. cbn [settlements] in Hout.
  destruct (JS.gtb _ _); [|eauto].
  rewrite <- app_assoc in Hout. eauto.
Qed.

End Order.

(** X17.  [creditors] and [debtors] are in descending order of amount, and
    entries of the same amount keep the order their balances have in
    [balances]. *)
Theorem parties_in_descending_order (balances : list Balance) :
  descending (creditors_of balances)
  /\ descending (debtors_of balances)
  /\ (forall v, filter (of_amount v) (creditors_of balances)
                = filter (of_amount v)
                    (map (fun b => mkParty (memberId b) (name b) (toCents (netBalance b)))
                       (filter (fun b => status b = "positive") balances)))
  /\ (forall v, filter (of_amount v) (debtors_of balances)
                = filter (of_amount v)
                    (map (fun b => mkParty (memberId b) (name b)
                                     (JS.abs (toCents (netBalance b))))
                       (filter (fun b => status b = "negative") balances))).
Proof.
  split; [apply sort_descending, creditors_numbers|].
  split; [apply sort_descending, debtors_numbers|].
  split; intros v; unfold creditors_of, debtors_of; rewrite sort_stable;
    do 2 f_equal; apply list_filter_iff; intros b; symmetry; apply status_cases.
Qed.

(** X18.  The first payment: when there is a creditor and a debtor, the
    first settlement [calculateSettlements] returns is from the first
    debtor to the first creditor (the largest of each), for the smaller of
    their two amounts. *)
Theorem first_settlement (balances : list Balance) (fuel : nat) (sts : list Settlement)
    (c d : Party) (cs ds : list Party) :
  calculateSettlements_fuel fuel balances = Some sts ->
  creditors_of balances = c :: cs -> debtors_of balances = d :: ds ->
  exists rest,
    sts = mkSettlement (partyName d) (partyId d) (partyName c) (partyId c)
            (fromCents (JS.min (amountCents c) (amountCents d))) :: rest.
Proof.
  unfold calculateSettlements_fuel. intros Hsts Hc Hd.
  destruct (while fuel (start balances)) as [[final n]|] eqn:Hw; [|discriminate].
  injection Hsts as <-.
  assert (Hit : iteration (start balances) = Some (settle (start balances) c d)).
  { unfold iteration. cbn [start creditors debtors i j]. now rewrite Hc, Hd. }
  assert (Hpos : JS.gtb (JS.min (amountCents c) (amountCents d)) (Fin 0) = true).
  { pose proof (creditors_positive balances) as Hcp.
    pose proof (debtors_positive balances) as Hdp.
    rewrite Hc in Hcp. rewrite Hd in Hdp.
    apply Forall_cons in Hcp as [Hcp _]. apply Forall_cons in Hdp as [Hdp _].
    apply positive_cases in Hcp, Hdp.
    destruct Hcp as [(x & -> & Hx)| ->], Hdp as [(y & -> & Hy)| ->]; cbn;
      try reflexivity; apply Z.ltb_lt; lia. }
  destruct fuel as [|fuel]; cbn [while] in Hw; rewrite Hit in Hw; [discriminate|].
  destruct (while fuel (settle (start balances) c d)) as [[f k]|] eqn:Hw'; [|discriminate].
  injection Hw as <- _. destruct (while_extends _ _ _ _ Hw') as [emitted Hout].
  unfold settle in Hout. cbv zeta in Hout. cbn [settlements start] in Hout.
  rewrite Hpos in Hout. exists emitted. exact Hout.
Qed.

Definition sample_settlements : list Settlement :=
  Eval vm_compute in default [] (calculateSettlements_fuel 4 ledger_sample).

Lemma first_settlement_witness :
  exists rest,
    sample_settlements
    = mkSettlement "Bob" "b" "Ann" "a" (fromCents (JS.min (Fin 600) (Fin 500))) :: rest.
Proof.
  apply (first_settlement ledger_sample 4 sample_settlements
           (mkParty "a" "Ann" (Fin 600)) (mkParty "b" "Bob" (Fin 500))
           [mkParty "d" "Di" (Fin 350)] [mkParty "c" "Cy" (Fin 450)]);
    [vm_compute; reflexivity|reflexivity|reflexivity].
Defined.

(** * The [State] object (lines 67-207)

    [State] holds the members, the expenses, the current step and the
    feedback.  Its methods are functions from the state before a call to the
    state after it and the value returned.  What the methods get from the
    environment is an argument here: the id [generateId] makes (line 201,
    from the clock and [Math.random]), the time [Date.now()] gives, and the
    function [toLowerCase] of strings.  [persist] writes a copy of the
    fields to [localStorage], changes no field and throws nothing (lines
    93-104); it is left out, and so is [init], which reads that copy back. *)

Module State.

(** An entry of [State.members]: [{ id, name, createdAt }]; the calculator
    reads its [id] and [name]. *)
Record MemberRecord : Type := mkMemberRecord {
  member : Member;
  memberCreatedAt : Z
}.

(** An entry of [State.expenses]:
    [{ id, title, amount, paidBy, splitBetween, createdAt }]; the calculator
    reads [amount], [paidBy] and [splitBetween]. *)
Record ExpenseRecord : Type := mkExpenseRecord {
  expenseId : string;
  title : string;
  expense : Expense;
  expenseCreatedAt : Z
}.

Record Feedback : Type := mkFeedback {
  rating : Z;
  text : string;
  timestamp : Z
}.

Record state : Type := mkState {
  members : list MemberRecord;
  expenses : list ExpenseRecord;
  currentStep : Z;
  feedback : option Feedback
}.

(** The fields as the object literal gives them (lines 68-71), and as
    [clearAll] sets them. *)
Definition initial : state := mkState [] [] 1 None.

Section Methods.

Variable toLowerCase : string -> string.

(** [State.setCurrentStep] *)
Definition setCurrentStep (step : Z) (st : state) : state :=
  mkState (members st) (expenses st) step (feedback st).

(** [State.addMember]; [None] is [null]. *)
Definition addMember (newId : string) (now : Z) (name : string) (st : state)
  : state * option MemberRecord :=
  let trimmedName := Str.trim name in
  if (trimmedName =? "")%string then (st, None)
  else if existsb (fun m => (toLowerCase (memberName (member m))
                             =? toLowerCase trimmedName)%string) (members st)
  then (st, None)
  else
    let m := mkMemberRecord (mkMember newId trimmedName) now in
    (mkState (members st ++ [m]) (expenses st) (currentStep st) (feedback st), Some m).

(** [expense.paidBy === memberId || expense.splitBetween.includes(memberId)] *)
Definition involves (memberId : string) (e : ExpenseRecord) : bool :=
  (paidBy (expense e) =? memberId)%string
  || existsb (fun k => (k =? memberId)%string) (splitBetween (expense e)).

(** [State.removeMember] *)
Definition removeMember (memberId : string) (st : state) : state * bool :=
  let isInvolved := existsb (involves memberId) (expenses st) in
  if isInvolved then (st, false)
  else
    (mkState (filter (fun m => id (member m) <> memberId) (members st))
       (expenses st) (currentStep st) (feedback st), true).

(** [this.members.find(m => m.id === memberId)], as a condition. *)
Definition has_member (memberId : string) (st : state) : bool :=
  existsb (fun m => (id (member m) =? memberId)%string) (members st).

(** [State.addExpense], for the strings the form passes; [None] is
    [null]. *)
Definition addExpense (newId : string) (now : Z) (title amount paidBy : string)
    (splitBetween : list string) (st : state) : state * option ExpenseRecord :=
  if (Str.trim title =? "")%string || (amount =? "")%string || (paidBy =? "")%string
     || (length splitBetween =? 0)%nat
  then (st, None)
  else
    let cents := toCents amount in
    if JS.leb cents (Fin 0) then (st, None)
    else if negb (has_member paidBy st) then (st, None)
    else if negb (forallb (fun memberId => has_member memberId st) splitBetween)
    then (st, None)
    else
      let e := mkExpenseRecord newId (Str.trim title)
                 (mkExpense (fromCents cents) paidBy splitBetween) now in
      (mkState (members st) (expenses st ++ [e]) (currentStep st) (feedback st), Some e).

(** [State.removeExpense] *)
Definition removeExpense (expenseId' : string) (st : state) : state :=
  mkState (members st) (filter (fun e => expenseId e <> expenseId') (expenses st))
    (currentStep st) (feedback st).

(** [State.saveFeedback] *)
Definition saveFeedback (now : Z) (rating : Z) (text : string) (st : state) : state :=
  mkState (members st) (expenses st) (currentStep st)
    (Some (mkFeedback rating (Str.trim text) now)).

(** [State.clearAll] *)
Definition clearAll (st : state) : state := initial.

(** [State.getMember]; [None] is [undefined]. *)
Definition getMember (memberId : string) (st : state) : option MemberRecord :=
  find (fun m => (id (member m) =? memberId)%string) (members st).

(** [State.expenses.sort((a, b) => b.createdAt - a.createdAt)] of
    [UI.renderExpenses] (lines 474-475): the array is sorted in place. *)
Definition sortExpenses (st : state) : state :=
  mkState (members st)
    (sort (fun a b => JS.sub (Fin (expenseCreatedAt b)) (Fin (expenseCreatedAt a)))
       (expenses st))
    (currentStep st) (feedback st).

(** A call that changes [State], with what the environment gives it. *)
Inductive call : Type :=
| AddMember (newId : string) (now : Z) (name : string)
| RemoveMember (memberId : string)
| AddExpense (newId : string) (now : Z) (title amount paidBy : string)
    (splitBetween : list string)
| RemoveExpense (expenseId : string)
| SaveFeedback (now : Z) (rating : Z) (text : string)
| SetCurrentStep (step : Z)
| ClearAll
| SortExpenses.

Definition run (st : state) (c : call) : state :=
  match c with
  | AddMember newId now name => (addMember newId now name st).1
  | RemoveMember memberId => (removeMember memberId st).1
  | AddExpense newId now title amount paidBy splitBetween =>
      (addExpense newId now title amount paidBy splitBetween st).1
  | RemoveExpense expenseId => removeExpense expenseId st
  | SaveFeedback now rating text => saveFeedback now rating text st
  | SetCurrentStep step => setCurrentStep step st
  | ClearAll => clearAll st
  | SortExpenses => sortExpenses st
  end.

(** The state after a sequence of calls. *)
Definition run_all (calls : list call) (st : state) : state := foldl run st calls.

End Methods.

(** The arguments of [Calculator.calculateBalances] in
    [UI.renderBalances] and [UI.renderSettlements]. *)
Definition ledger_members (st : state) : list Member := map member (members st).
Definition ledger_expenses (st : state) : list Expense := map expense (expenses st).

End State.

(** ** What the methods of [State] keep *)

Section Trim.

Local Open Scope string_scope.

Lemma rtrim_rtrim (s : string) : Str.rtrim (Str.rtrim s) = Str.rtrim s.
Proof.
  induction s as [|c s IH]; [reflexivity|]. cbn [Str.rtrim].
  destruct (Str.rtrim s) as [|c' r] eqn:Hr.
  - destruct (Str.is_ws c) eqn:Hc; [reflexivity|]. cbn [Str.rtrim]. now rewrite Hc.
  - change (Str.rtrim (String c (String c' r)))
      with (match Str.rtrim (String c' r) with
            | "" => if Str.is_ws c then "" else String c ""
            | r' => String c r'
            end).
    now rewrite IH.
Qed.

Lemma trim_trim (s : string) : Str.trim (Str.trim s) = Str.trim s.
Proof.
  unfold Str.trim at 1. rewrite ltrim_trim. unfold Str.trim. apply rtrim_rtrim.
Qed.

End Trim.

Section State_invariants.

Variable toLowerCase : string -> string.

Implicit Types (st : State.state) (c : State.call).

Lemma has_member_spec (memberId : string) st :
  State.has_member memberId st = true <-> memberId ∈ map id (State.ledger_members st).
Proof.
  unfold State.has_member, State.ledger_members. rewrite existsb_exists. split.
  - intros (m & Hm & E). apply String.eqb_eq in E. subst memberId.
    rewrite map_map. apply list_elem_of_fmap. exists m. split; [reflexivity|].
    now apply list_elem_of_In.
  - rewrite map_map. intros H. apply list_elem_of_fmap in H as (m & -> & Hm).
    exists m. split; [now apply list_elem_of_In|apply String.eqb_refl].
Qed.

(** What holds of every stored expense. *)
Definition stored_ok (ms : list Member) (e : State.ExpenseRecord) : Prop :=
  refers_to_members ms (State.expense e)
  /\ splitBetween (State.expense e) <> []
  /\ paidBy (State.expense e) <> ""%string
  /\ positive (toCents (amount (State.expense e)))
  /\ fromCents (toCents (amount (State.expense e))) = amount (State.expense e)
  /\ State.title e <> ""%string
  /\ Str.trim (State.title e) = State.title e.

(** What holds of every stored member. *)
Definition named_ok (m : State.MemberRecord) : Prop :=
  memberName (State.member m) <> ""%string
  /\ Str.trim (memberName (State.member m)) = memberName (State.member m).

Record consistent st : Prop := mkConsistent {
  expenses_ok : Forall (stored_ok (State.ledger_members st)) (State.expenses st);
  names_ok : Forall named_ok (State.members st);
  names_distinct :
    NoDup (map (fun m => toLowerCase (memberName (State.member m))) (State.members st))
}.

Lemma stored_ok_members (ms ms' : list Member) (e : State.ExpenseRecord) :
  (forall k, k ∈ map id ms ->
     (k = paidBy (State.expense e) \/ k ∈ splitBetween (State.expense e)) ->
     k ∈ map id ms') ->
  stored_ok ms e -> stored_ok ms' e.
Proof.
  intros Hsub ((Hp & Hs) & Hrest). split; [|exact Hrest]. split.
  - apply Hsub; [exact Hp|now left].
  - rewrite Forall_forall in Hs |- *. intros k Hk. apply Hsub; [now apply Hs|now right].
Qed.

Lemma initial_consistent : consistent State.initial.
Proof. split; cbn; constructor. Qed.

Lemma addMember_consistent newId now name st :
  consistent st -> consistent (State.addMember toLowerCase newId now name st).1.
Proof.
  intros [He Hn Hd]. unfold State.addMember. cbv zeta.
  destruct (String.eqb_spec (Str.trim name) "") as [|Hne]; [now split|].
  destruct (existsb _ (State.members st)) eqn:Hex; [now split|].
  cbn [fst]. split; cbn [State.members State.expenses State.ledger_members].
  - eapply Forall_impl; [exact He|]. intros e. apply stored_ok_members.
    intros k Hk _. unfold State.ledger_members. cbn [State.members].
    rewrite map_app, map_app. apply elem_of_app. now left.
  - apply Forall_app. split; [exact Hn|]. constructor; [|constructor].
    split; cbn; [exact Hne|apply trim_trim].
  - rewrite map_app. cbn [map State.member memberName].
    apply NoDup_app. split; [exact Hd|]. split; [|apply NoDup_singleton].
    intros x Hx Hx'. apply list_elem_of_singleton in Hx'. subst x.
    apply list_elem_of_fmap in Hx as (m & E & Hm).
    assert (Hfalse : existsb (fun m => (toLowerCase (memberName (State.member m))
                                        =? toLowerCase (Str.trim name))%string)
                       (State.members st) = true).
    { apply existsb_exists. exists m. split; [now apply list_elem_of_In|].
      apply String.eqb_eq. now symmetry. }
    congruence.
Qed.

Lemma involves_false (memberId : string) (e : State.ExpenseRecord) :
  State.involves memberId e = false ->
  paidBy (State.expense e) <> memberId /\ memberId ∉ splitBetween (State.expense e).
Proof.
  unfold State.involves. intros H. apply orb_false_iff in H as [Hp Hs]. split.
  - now apply String.eqb_neq.
  - intros Hin. assert (Ht : existsb (fun k => (k =? memberId)%string)
                               (splitBetween (State.expense e)) = true).
    { apply existsb_exists. exists memberId.
      split; [now apply list_elem_of_In|apply String.eqb_refl]. }
    congruence.
Qed.

Lemma involves_true (memberId : string) (e : State.ExpenseRecord) :
  State.involves memberId e = true ->
  paidBy (State.expense e) = memberId \/ memberId ∈ splitBetween (State.expense e).
Proof.
  unfold State.involves. intros H. apply orb_true_iff in H as [Hp|Hs].
  - left. now apply String.eqb_eq.
  - right. apply existsb_exists in Hs as (k & Hk & E). apply String.eqb_eq in E.
    subst k. now apply list_elem_of_In.
Qed.

Lemma not_involved (memberId : string) st :
  existsb (State.involves memberId) (State.expenses st) = false ->
  Forall (fun e => paidBy (State.expense e) <> memberId
                   /\ memberId ∉ splitBetween (State.expense e)) (State.expenses st).
Proof.
  intros H. apply Forall_forall. intros e He. apply involves_false.
  destruct (State.involves memberId e) eqn:E; [|reflexivity].
  assert (existsb (State.involves memberId) (State.expenses st) = true); [|congruence].
  apply existsb_exists. exists e. split; [now apply list_elem_of_In|exact E].
Qed.

Lemma removeMember_consistent memberId st :
  consistent st -> consistent (State.removeMember memberId st).1.
Proof.
  intros [He Hn Hd]. unfold State.removeMember. cbv zeta.
  destruct (existsb (State.involves memberId) (State.expenses st)) eqn:Hinv; [now split|].
  pose proof (not_involved memberId st Hinv) as Hnot.
  cbn [fst]. split; cbn [State.members State.expenses State.ledger_members].
  - rewrite Forall_forall in He, Hnot |- *. intros e Hin.
    destruct (Hnot e Hin) as [Hp Hs].
    eapply stored_ok_members; [|apply He; exact Hin].
    intros k Hk Hrole. unfold State.ledger_members in *. cbn [State.members].
    rewrite map_map in Hk |- *. apply list_elem_of_fmap in Hk as (m & -> & Hm).
    apply list_elem_of_fmap. exists m. split; [reflexivity|].
    apply list_elem_of_filter. split; [|exact Hm].
    destruct Hrole as [E|E]; [congruence|]. intros E'. apply Hs. congruence.
  - apply Forall_forall. intros m Hm. apply list_elem_of_filter in Hm as [_ Hm].
    rewrite Forall_forall in Hn. now apply Hn.
  - eapply sublist_NoDup; [exact Hd|]. apply (fmap_sublist _), sublist_filter.
Qed.

Lemma addExpense_consistent newId now ttl amt payer sb st :
  consistent st ->
  consistent (State.addExpense newId now ttl amt payer sb st).1.
Proof.
  intros [He Hn Hd]. unfold State.addExpense. cbv zeta.
  destruct (_ || _ || _ || _) eqn:Hblank; [now split|].
  apply orb_false_iff in Hblank as [Hblank Hlen].
  apply orb_false_iff in Hblank as [Hblank Hpaid].
  apply orb_false_iff in Hblank as [Htitle Hamount].
  destruct (JS.leb (toCents amt) (Fin 0)) eqn:Hcents; [now split|].
  destruct (State.has_member payer st) eqn:Hpayer; [|now split].
  destruct (forallb _ sb) eqn:Hall; [|now split].
  cbn [negb fst]. split; cbn [State.members State.expenses]; [|exact Hn|exact Hd].
  apply Forall_app. split; [exact He|]. constructor; [|constructor].
  assert (Hpos : positive (toCents amt)).
  { pose proof (toCents_not_NaN amt) as Hnan. unfold positive.
    destruct (toCents amt) as [z| | |]; try discriminate; try contradiction;
      cbn in *; [|reflexivity].
    apply Z.leb_gt in Hcents. now apply Z.ltb_lt. }
  assert (Hread : toCents (fromCents (toCents amt)) = toCents amt).
  { rewrite toCents_fromCents_reread. pose proof (toCents_not_NaN amt).
    now destruct (toCents amt). }
  unfold stored_ok. cbn [State.expense State.title amount paidBy splitBetween].
  split; [split|].
  - now apply has_member_spec.
  - apply Forall_forall. intros k Hk. apply has_member_spec.
    rewrite forallb_forall in Hall. apply Hall. now apply list_elem_of_In.
  - split; [|split; [|split; [|split; [|split]]]].
    + intros ->. discriminate.
    + now apply String.eqb_neq.
    + now rewrite Hread.
    + now rewrite Hread.
    + now apply String.eqb_neq.
    + apply trim_trim.
Qed.

End State_invariants.

Section State_runs.

Variable toLowerCase : string -> string.

Implicit Types (st : State.state) (c : State.call) (calls : list State.call).

Lemma run_consistent st c :
  consistent toLowerCase st -> consistent toLowerCase (State.run toLowerCase st c).
Proof.
  intros H. destruct c; cbn [State.run].
  - now apply addMember_consistent.
  - now apply removeMember_consistent.
  - now apply addExpense_consistent.
  - destruct H as [He Hn Hd]. split; cbn; [|exact Hn|exact Hd].
    apply Forall_forall. intros e He'. apply list_elem_of_filter in He' as [_ He'].
    rewrite Forall_forall in He. now apply He.
  - destruct H as [He Hn Hd]. now split.
  - destruct H as [He Hn Hd]. now split.
  - apply initial_consistent.
  - destruct H as [He Hn Hd]. split; cbn; [|exact Hn|exact Hd].
    unfold State.ledger_members. cbn [State.members].
    now rewrite sort_perm.
Qed.

Lemma run_all_consistent calls st :
  consistent toLowerCase st -> consistent toLowerCase (State.run_all toLowerCase calls st).
Proof.
  revert st. induction calls as [|c calls IH]; intros st H; [exact H|].
  cbn [State.run_all foldl]. apply IH. now apply run_consistent.
Qed.

(** The ids [generateId] made for the calls of [addMember]. *)
Definition added_ids calls : list string :=
  concat (map (fun c => match c with
                        | State.AddMember newId _ _ => [newId]
                        | _ => []
                        end) calls).

Definition member_ids st : list string := map id (State.ledger_members st).

Lemma run_member_ids st c (later : list string) :
  NoDup (member_ids st ++ added_ids [c] ++ later) ->
  NoDup (member_ids (State.run toLowerCase st c) ++ later).
Proof.
  unfold member_ids, State.ledger_members, added_ids.
  destruct c; cbn [State.run map concat app]; rewrite ?app_nil_r; try (intros H; exact H).
  - unfold State.addMember. cbv zeta.
    destruct (_ =? _)%string; cbn [fst].
    { rewrite NoDup_app. intros (H1 & H2 & H3). apply NoDup_cons in H3 as [_ H3].
      apply NoDup_app. split; [exact H1|]. split; [|exact H3].
      intros x Hx Hx'. apply (H2 x Hx). now right. }
    destruct (existsb _ _); cbn [fst State.members].
    { rewrite NoDup_app. intros (H1 & H2 & H3). apply NoDup_cons in H3 as [_ H3].
      apply NoDup_app. split; [exact H1|]. split; [|exact H3].
      intros x Hx Hx'. apply (H2 x Hx). now right. }
    rewrite !map_app. cbn [map State.member id]. now rewrite <- app_assoc.
  - unfold State.removeMember. cbv zeta.
    destruct (existsb _ _); cbn [fst State.members]; [intros H; exact H|].
    intros H. eapply sublist_NoDup; [exact H|].
    apply sublist_app; [|reflexivity].
    apply (fmap_sublist _), (fmap_sublist _), sublist_filter.
  - unfold State.addExpense. cbv zeta.
    repeat (match goal with |- context [if ?b then _ else _] => destruct b end;
            cbn [fst State.members]); intros H; exact H.
  - cbn. intros H. eapply sublist_NoDup; [exact H|]. apply sublist_inserts_l. reflexivity.
Qed.

Lemma run_all_member_ids calls st :
  NoDup (member_ids st ++ added_ids calls) ->
  NoDup (member_ids (State.run_all toLowerCase calls st)).
Proof.
  revert st. induction calls as [|c calls IH]; intros st H.
  - cbn in H. now rewrite app_nil_r in H.
  - cbn [State.run_all foldl]. apply IH. apply run_member_ids.
    unfold added_ids in *. cbn [map concat] in *. now rewrite app_nil_r.
Qed.





End State_runs.

(** A [toLowerCase] for the examples: the letters A to Z. *)
Definition lower_letter (c : ascii) : ascii :=
  let n := nat_of_ascii c in
  if ((65 <=? n) && (n <=? 90))%nat then ascii_of_nat (n + 32) else c.

Fixpoint lower_letters (s : string) : string :=
  match s with
  | EmptyString => EmptyString
  | String c r => String (lower_letter c) (lower_letters r)
  end.

Definition sample_calls : list State.call :=
  [State.AddMember "1-a" 1 " Ann "; State.AddMember "2-b" 2 "Bob";
   State.AddMember "3-c" 3 "ANN"; State.AddMember "4-d" 4 "Cy";
   State.AddExpense "5-e" 5 "Lunch " "100" "1-a" ["1-a"; "2-b"; "4-d"];
   State.AddExpense "6-f" 6 "Taxi" "0.05" "4-d" ["2-b"; "1-a"];
   State.AddExpense "7-g" 7 "Void" "0" "1-a" ["1-a"];
   State.RemoveMember "2-b"; State.SortExpenses;
   State.RemoveExpense "6-f"; State.SetCurrentStep 3].

(** X19.  The methods of [State] keep every stored expense referring to
    stored members: after any sequence of calls on the initial state, the
    payer and every participant of every expense is the id of a member, and
    so [calculateBalances] on the state returns balances and does not
    throw. *)
Theorem state_keeps_references (toLowerCase : string -> string)
    (calls : list State.call) :
  let st := State.run_all toLowerCase calls State.initial in
  Forall (refers_to_members (State.ledger_members st)) (State.ledger_expenses st)
  /\ exists balances,
       calculateBalances (State.ledger_members st) (State.ledger_expenses st)
       = Ok balances.
Proof.
  cbv zeta.
  destruct (run_all_consistent toLowerCase calls State.initial
              (initial_consistent toLowerCase)) as [He _ _].
  assert (H : Forall (refers_to_members
                        (State.ledger_members
                           (State.run_all toLowerCase calls State.initial)))
                (State.ledger_expenses (State.run_all toLowerCase calls State.initial))).
  { unfold State.ledger_expenses. apply Forall_fmap.
    eapply Forall_impl; [exact He|]. now intros e [Hr _]. }
  split; [exact H|]. now apply refers_returns.
Qed.


(** X21.  The names [addMember] stores are trimmed, not empty, and pairwise
    different when letter case is ignored. *)
Theorem member_names_are_distinct (toLowerCase : string -> string)
    (calls : list State.call) :
  let st := State.run_all toLowerCase calls State.initial in
  Forall (fun m => memberName m <> ""%string /\ Str.trim (memberName m) = memberName m)
    (State.ledger_members st)
  /\ NoDup (map (fun m => toLowerCase (memberName m)) (State.ledger_members st)).
Proof.
  cbv zeta.
  destruct (run_all_consistent toLowerCase calls State.initial
              (initial_consistent toLowerCase)) as [_ Hn Hd].
  split.
  - unfold State.ledger_members. apply Forall_fmap. exact Hn.
  - unfold State.ledger_members. now rewrite map_map.
Qed.

(** X22.  The member ids are distinct as long as [generateId] never makes
    the same id for two calls of [addMember]. *)
Theorem member_ids_are_distinct (toLowerCase : string -> string)
    (calls : list State.call) :
  NoDup (added_ids calls) ->
  NoDup (map id (State.ledger_members (State.run_all toLowerCase calls State.initial))).
Proof.
  intros H. apply (run_all_member_ids toLowerCase calls State.initial). exact H.
Qed.

Lemma member_ids_are_distinct_witness :
  NoDup (map id (State.ledger_members
                   (State.run_all lower_letters sample_calls State.initial))).
Proof.
  apply member_ids_are_distinct.
  apply (bool_decide_unpack _). vm_compute. exact I.
Defined.



(** ** [State]: adding, finding and removing *)

Section Lookups.

Implicit Types (st : State.state).


Lemma find_filter_other (P : State.MemberRecord -> Prop)
    `{!forall m, Decision (P m)} (f : State.MemberRecord -> bool)
    (l : list State.MemberRecord) :
  (forall m, f m = true -> P m) -> find f (filter P l) = find f l.
Proof.
  intros Himp. induction l as [|m l IH]; [reflexivity|].
  rewrite filter_cons. cbn [find]. destruct (f m) eqn:Hf.
  - destruct (decide (P m)) as [_|Hn]; [cbn [find]; now rewrite Hf|].
    destruct Hn. now apply Himp.
  - destruct (decide (P m)); [cbn [find]; now rewrite Hf|exact IH].
Qed.

Lemma find_filter_none (P : State.MemberRecord -> Prop)
    `{!forall m, Decision (P m)} (f : State.MemberRecord -> bool)
    (l : list State.MemberRecord) :
  (forall m, f m = true -> ~ P m) -> find f (filter P l) = None.
Proof.
  intros Himp. induction l as [|m l IH]; [reflexivity|].
  rewrite filter_cons. destruct (decide (P m)) as [HP|_]; [|exact IH].
  cbn [find]. destruct (f m) eqn:Hf; [|exact IH]. destruct (Himp m Hf HP).
Qed.

Lemma filter_all {A : Type} (P : A -> Prop) `{!forall x, Decision (P x)} (l : list A) :
  (forall x, P x) -> filter P l = l.
Proof.
  intros Hall. induction l as [|x l IH]; [reflexivity|].
  rewrite filter_cons. destruct (decide (P x)) as [_|Hn]; [now rewrite IH|].
  destruct Hn. apply Hall.
Qed.

(** The expenses left after [removeExpense] for every id of [ids]. *)
Lemma removeExpense_all (ids : list string) st :
  State.expenses (foldl (fun s k => State.removeExpense k s) st ids)
  = filter (fun e => State.expenseId e ∉ ids) (State.expenses st)
  /\ State.members (foldl (fun s k => State.removeExpense k s) st ids)
     = State.members st.
Proof.
  revert st. induction ids as [|k ids IH]; intros st; cbn [foldl].
  - split; [|reflexivity]. symmetry. apply filter_all. intros e.
    apply not_elem_of_nil.
  - destruct (IH (State.removeExpense k st)) as [-> ->].
    cbn [State.removeExpense State.expenses State.members]. split; [|reflexivity].
    rewrite list_filter_filter. apply list_filter_iff. intros e.
    rewrite not_elem_of_cons. tauto.
Qed.

End Lookups.


(** X25.  [State.removeMember] refuses exactly when some expense names the
    member as payer or participant, and then changes nothing; otherwise no
    member with that id is left ([getMember] finds none), every other id is
    found as before, and the expenses are untouched. *)
Theorem removeMember_then_getMember (memberId : string) (st : State.state) :
  match State.removeMember memberId st with
  | (st', true) =>
      Forall (fun e => paidBy (State.expense e) <> memberId
                       /\ memberId ∉ splitBetween (State.expense e)) (State.expenses st)
      /\ State.getMember memberId st' = None
      /\ (forall k, k <> memberId -> State.getMember k st' = State.getMember k st)
      /\ State.expenses st' = State.expenses st
  | (st', false) =>
      st' = st
      /\ Exists (fun e => paidBy (State.expense e) = memberId
                          \/ memberId ∈ splitBetween (State.expense e)) (State.expenses st)
  end.
Proof.
  unfold State.removeMember. cbv zeta.
  destruct (existsb (State.involves memberId) (State.expenses st)) eqn:Hinv.
  - split; [reflexivity|]. apply existsb_exists in Hinv as (e & He & Hi).
    apply Exists_exists. exists e. split; [now apply list_elem_of_In|].
    now apply involves_true.
  - split; [now apply not_involved|]. unfold State.getMember. cbn [State.members].
    split; [|split; [|reflexivity]].
    + apply find_filter_none. intros m Hm. apply String.eqb_eq in Hm. tauto.
    + intros k Hk. apply find_filter_other. intros m Hm.
      apply String.eqb_eq in Hm. congruence.
Qed.

(** X26.  A member becomes removable once the expenses that involve the
    member are deleted: after [removeExpense] for the id of every expense
    that names the member as payer or participant, [removeMember] returns
    [true]. *)
Theorem removeMember_after_removeExpense (memberId : string) (st : State.state) :
  let involved := filter (fun e => State.involves memberId e = true) (State.expenses st) in
  let st' := foldl (fun s k => State.removeExpense k s) st (map State.expenseId involved) in
  (State.removeMember memberId st').2 = true
  /\ State.members st' = State.members st
  /\ Forall (fun e => e ∈ State.expenses st) (State.expenses st').
Proof.
  cbv zeta.
  set (ids := map State.expenseId
                (filter (fun e => State.involves memberId e = true) (State.expenses st))).
  destruct (removeExpense_all ids st) as [He Hm]. rewrite Hm.
  split; [|split; [reflexivity|]].
  - unfold State.removeMember. cbv zeta. rewrite He.
    destruct (existsb _ _) eqn:Hex; [|reflexivity].
    apply existsb_exists in Hex as (e & Hin & Hi).
    apply list_elem_of_In, list_elem_of_filter in Hin as [Hnot Hin].
    destruct Hnot. unfold ids. apply list_elem_of_fmap. exists e.
    split; [reflexivity|]. apply list_elem_of_filter. now split.
  - rewrite He. apply Forall_forall. intros e Hin.
    now apply list_elem_of_filter in Hin as [_ Hin].
Qed.
